(** * COCO-to-YOLO dataset scripts: a shallow embedding

    The development follows three of the repository's scripts:
    [generate_labels.py] (module [GenerateLabels]),
    [merge_COCO_dataset.py] (module [MergeCoco]) and
    [split_COCO_dataset.py] (module [SplitCoco]).

    Python values are given the types the scripts rely on: identifiers and
    pixel dimensions are integers ([Z]), coordinates are numbers ([Q], the
    exact counterpart of Python's floats), dictionaries read through
    [key in d] / [d.get(key)] have optional fields, and every Python
    exception that the scripts let escape is a value of [exn]. *)

From Stdlib Require Import ZArith QArith Qround Lia.
From stdpp Require Import base option list gmap strings sorting.

Local Open Scope Z_scope.
Set Warnings "-clear-no-such-hyp".

(** ** Python exceptions and the error monad *)

Module Py.

Inductive exn : Set :=
  | KeyError
  | ValueError
  | IndexError
  | TypeError
  | ZeroDivisionError.

Inductive result (A : Type) : Type :=
  | Ok (a : A)
  | Raise (e : exn).
Arguments Ok {A} a.
Arguments Raise {A} e.

#[export] Instance result_ret : MRet result := fun A a => Ok a.
#[export] Instance result_bind : MBind result := fun A B f r =>
  match r with
  | Ok a => f a
  | Raise e => Raise e
  end.

Definition is_ok {A} (r : result A) : bool :=
  match r with Ok _ => true | Raise _ => false end.

(** A [for] loop whose body may raise: the first exception ends the loop. *)
Fixpoint foldM {A B} (body : B -> A -> result B) (acc : B) (l : list A) : result B :=
  match l with
  | [] => Ok acc
  | x :: l' => acc' ← body acc x; foldM body acc' l'
  end.

(** [d[key]] on a dictionary entry that may be absent. *)
Definition subscript {A} (o : option A) : result A :=
  match o with
  | Some a => Ok a
  | None => Raise KeyError
  end.

(** [l[i]] on a list. *)
Definition index {A} (l : list A) (i : nat) : result A :=
  match l !! i with
  | Some a => Ok a
  | None => Raise IndexError
  end.

(** [range(0, n, 2)]. *)
Definition range2 (n : nat) : list nat :=
  (fun k => 2 * k)%nat <$> seq 0 (Nat.div2 (n + 1)).

(** [max(l, key=key)]: the key of every item is computed in turn, and the
    running maximum is replaced only by an item with a strictly greater
    key, so the first maximal item is returned. *)
Fixpoint max_loop {A K} (lt : K -> K -> bool) (key : A -> result K)
    (maxitem : A) (maxval : K) (rest : list A) : result A :=
  match rest with
  | [] => Ok maxitem
  | item :: rest' =>
      val ← key item;
      if lt maxval val then max_loop lt key item val rest'
      else max_loop lt key maxitem maxval rest'
  end.

Definition max_key {A K} (lt : K -> K -> bool) (key : A -> result K) (l : list A) : result A :=
  match l with
  | [] => Raise ValueError
  | item :: rest => val ← key item; max_loop lt key item val rest
  end.

Definition Qltb (a b : Q) : bool := negb (Qle_bool b a).

(** A dictionary comprehension [{k: v for ...}]: later pairs overwrite
    earlier ones. *)
Definition dict_of `{Countable K} {V} (kvs : list (K * V)) : gmap K V :=
  foldl (fun m kv => <[kv.1 := kv.2]> m) ∅ kvs.

(** [enumerate(l)]. *)
Definition enumerate {A} (l : list A) : list (nat * A) :=
  imap pair l.

(** Dictionaries whose iteration order is observed are kept as association
    lists in insertion order, with pairwise distinct keys. *)
Section odict.
Context {V : Type}.

Definition od_mem (k : Z) (d : list (Z * V)) : bool :=
  bool_decide (k ∈ d.*1).

(** [if k not in d: d[k] = v] *)
Definition od_setdefault (k : Z) (v : V) (d : list (Z * V)) : list (Z * V) :=
  if od_mem k d then d else d ++ [(k, v)].

(** [d[k] = f(d[k])] for a key that is present. *)
Fixpoint od_alter (f : V -> V) (k : Z) (d : list (Z * V)) : list (Z * V) :=
  match d with
  | [] => []
  | (k', v) :: d' =>
      if decide (k' = k) then (k', f v) :: d' else (k', v) :: od_alter f k d'
  end.
End odict.

End Py.
Import Py.

(** ** The data model shared by the scripts *)

(** An entry of [data['images']].  The merge script reads every field with
    [.get], so each of them may be absent. *)
Record image : Type := Image {
  img_id : option Z;
  file_name : option string;
  width : option Z;
  height : option Z
}.

(** An entry of [data['categories']]. *)
Record category : Type := Category {
  cat_id : Z;
  cat_name : string
}.

(** An element of a segmentation list: a coordinate, or a sub-polygon
    (a flat list of coordinates). *)
Inductive pelem : Type :=
  | PNum (q : Q)
  | PList (l : list Q).

(** A run-length encoding [{'counts': ..., 'size': ...}]. *)
Record rle_obj : Type := Rle {
  counts : list Z;
  size : list Z
}.

(** The [segmentation] field: a dictionary with a ['counts'] key, a list,
    or a dictionary (or string) in which ['counts'] does not occur. *)
Inductive seg : Type :=
  | SegRLE (r : rle_obj)
  | SegList (l : list pelem)
  | SegOther.

(** An entry of [data['annotations']]; [ann_rest] names the keys other than
    the four that the converter requires. *)
Record annotation : Type := Annotation {
  ann_id : option Z;
  image_id : option Z;
  category_id : option Z;
  segmentation : option seg;
  ann_rest : list string
}.

(** The loaded JSON file; [ds_rest] stands for the top-level entries other
    than the three lists. *)
Record dataset : Type := Dataset {
  images : list image;
  categories : option (list category);
  annotations : list annotation;
  ds_rest : list (string * string)
}.

(** [len(ann)] *)
Definition ann_len (ann : annotation) : nat :=
  ((if ann_id ann is Some _ then 1 else 0) +
   (if image_id ann is Some _ then 1 else 0) +
   (if category_id ann is Some _ then 1 else 0) +
   (if segmentation ann is Some _ then 1 else 0) +
   length (ann_rest ann))%nat.

(** ** generate_labels.py *)

Module GenerateLabels.

(** A decoded mask and a contour, as OpenCV hands them over. *)
Definition binary_mask : Type := list (list bool).
Definition contour : Type := list (Z * Z).

(** The library calls of the script: [mask_utils.decode],
    [cv2.findContours(_, RETR_EXTERNAL, CHAIN_APPROX_SIMPLE)],
    [cv2.contourArea], [cv2.approxPolyDP] and [os.path.splitext]. *)
Class Lib : Type := {
  decode : rle_obj -> result binary_mask;
  findContours : binary_mask -> list contour;
  contourArea : contour -> Q;
  approxPolyDP : contour -> Q -> bool -> contour;
  splitext : string -> string * string
}.

(** [print] calls, in the order they are issued. *)
Inductive log_msg : Type :=
  | WarnNoCategories
  | WarnTruncated (ann : Z)
  | WarnMissingFields (ann : annotation)
  | WarnImageNotFound (img ann : Z)
  | WarnNoContours (ann : Z)
  | WarnUnknownFormat (ann : Z).

(** [x / d] for a list element [x] and an integer [d]. *)
Definition div (x : pelem) (d : Z) : result Q :=
  match x with
  | PNum q => if decide (d = 0) then Raise ZeroDivisionError else Ok (q / inject_Z d)%Q
  | PList _ => Raise TypeError
  end.

(** The loop shared by lines 50-53 and 178-181:
    [for i in range(0, len(p), 2): out.append(p[i] / w); out.append(p[i+1] / h)]. *)
Definition normalize_step (p : list pelem) (w h : Z) (out : list Q) (i : nat) : result (list Q) :=
  xi ← index p i;
  x ← div xi w;
  yi ← index p (i + 1);
  y ← div yi h;
  Ok (out ++ [x; y]).

Definition normalize (p : list pelem) (w h : Z) : result (list Q) :=
  foldM (normalize_step p w h) [] (range2 (length p)).

(** [contour.flatten().tolist()] *)
Definition flatten (c : contour) : list Z :=
  c ≫= (fun xy => [xy.1; xy.2]).

(** What [rle_to_yolo_polygon] hands back: the empty list of line 36, or
    the pair of line 55. *)
Inductive rle_ret : Type :=
  | RetEmptyList
  | RetPair (normalized : list Q) (flattened : list Z).

(** The first argument of [rle_to_yolo_polygon]: a bare counts list or an
    RLE dictionary. *)
Inductive rle_arg : Type :=
  | RleCounts (l : list Z)
  | RleDict (r : rle_obj).

(** [x_min, y_min, width, height = bbox] *)
Definition unpack4 (bbox : list Q) : result (Q * Q * Q * Q) :=
  match bbox with
  | [x_min; y_min; width; height] => Ok (x_min, y_min, width, height)
  | _ => Raise ValueError
  end.

(** [x / d] for a number [x] and an image dimension [d]. *)
Definition true_div (x : Q) (d : Z) : result Q :=
  if decide (d = 0) then Raise ZeroDivisionError else Ok (x / inject_Z d)%Q.

(** Lines 57-69. *)
Definition normalize_bb (bbox : list Q) (img_h img_w : Z) : result (list Q) :=
  box ← unpack4 bbox;
  let '(x_min, y_min, width, height) := box in
  let x_max := (x_min + width)%Q in
  let y_max := (y_min + height)%Q in
  x_center ← true_div ((x_min + x_max) / 2)%Q img_w;
  y_center ← true_div ((y_min + y_max) / 2)%Q img_h;
  bb_width ← true_div width img_w;
  bb_height ← true_div height img_h;
  Ok [x_center; y_center; bb_width; bb_height].

(** An entry of [image_id_to_info]. *)
Record img_info : Type := ImgInfo {
  info_file_name : string;
  info_width : Z;
  info_height : Z
}.

(** The variables the annotation loop updates. *)
Record state : Type := State {
  new_annotations : list annotation;
  image_annotations : list (Z * list (nat * list Q));
  log : list log_msg
}.

Section with_lib.
Context `{Lib}.

Definition rle_to_yolo_polygon (rle : rle_arg) (img_height img_width : Z)
    (simplify : bool) (epsilon : Q) : result rle_ret :=
  let rle :=
    match rle with
    | RleCounts l => Rle l [img_height; img_width]
    | RleDict r => r
    end in
  binary_mask ← decode rle;
  match findContours binary_mask with
  | [] => Ok RetEmptyList
  | contours =>
      largest_contour ← max_key Qltb (fun c => Ok (contourArea c)) contours;
      let largest_contour :=
        if simplify then approxPolyDP largest_contour epsilon true
        else largest_contour in
      let flattened := flatten largest_contour in
      normalized ← normalize ((fun z => PNum (inject_Z z)) <$> flattened) img_width img_height;
      Ok (RetPair normalized flattened)
  end.

(** [a, b = value] *)
Definition unpack2 (r : rle_ret) : result (list Q * list Z) :=
  match r with
  | RetEmptyList => Raise ValueError
  | RetPair n f => Ok (n, f)
  end.

Definition build_image_info (imgs : list image) : result (gmap Z img_info) :=
  foldM (fun (m : gmap Z img_info) image =>
           fn ← subscript (file_name image);
           w ← subscript (width image);
           h ← subscript (height image);
           id ← subscript (img_id image);
           Ok (<[id := ImgInfo fn w h]> m)) ∅ imgs.

(** [unique_cats] of lines 109-112. *)
Definition unique_cats (anns : list annotation) : gset Z :=
  foldl (fun (s : gset Z) ann =>
           match category_id ann with
           | Some c => {[c]} ∪ s
           | None => s
           end) ∅ anns.

(** [sorted(s)] for a set of integers: its elements in increasing order. *)
Definition sorted (s : gset Z) : list Z := merge_sort Z.le (elements s).

(** Lines 102-113. *)
Definition build_category_mapping (data : dataset) : gmap Z nat * list log_msg :=
  match categories data with
  | Some cats =>
      (dict_of ((fun ic => (cat_id ic.2, ic.1)) <$> enumerate cats), [])
  | None =>
      (dict_of ((fun ic => (ic.2, ic.1)) <$> enumerate (sorted (unique_cats (annotations data)))),
       [WarnNoCategories])
  end.

Definition print (m : log_msg) (st : state) : state :=
  State (new_annotations st) (image_annotations st) (log st ++ [m]).

(** [image_annotations[image_id].append(label); new_annotations.append(ann)] *)
Definition accept (image_id : Z) (label : nat * list Q) (ann : annotation) (st : state) : state :=
  State (new_annotations st ++ [ann])
        (od_alter (fun ls => ls ++ [label]) image_id (image_annotations st))
        (log st).

(** [len(e)] for a list element, the key of line 172. *)
Definition len (e : pelem) : result nat :=
  match e with
  | PList l => Ok (length l)
  | PNum _ => Raise TypeError
  end.

(** [len(poly_points)] followed by [poly_points[i]]: the items of a list
    element. *)
Definition items (e : pelem) : result (list pelem) :=
  match e with
  | PList l => Ok (PNum <$> l)
  | PNum _ => Raise TypeError
  end.

(** Lines 167-175. *)
Definition poly_points (poly_list : list pelem) : result (list pelem) :=
  first ← index poly_list 0;
  match first with
  | PList _ => largest_poly ← max_key Nat.ltb len poly_list; items largest_poly
  | PNum _ => Ok poly_list
  end.

(** The body of the loop of line 120; [continue] hands the state on. *)
Definition process_annotation (image_id_to_info : gmap Z img_info)
    (category_mapping : gmap Z nat) (st : state) (ann : annotation) : result state :=
  match ann_id ann, image_id ann, category_id ann, segmentation ann with
  | Some id, Some image_id, Some category_id, Some sg =>
      match image_id_to_info !! image_id with
      | None => Ok (print (WarnImageNotFound image_id id) st)
      | Some img_info =>
          let img_width := info_width img_info in
          let img_height := info_height img_info in
          let st := State (new_annotations st)
                          (od_setdefault image_id [] (image_annotations st))
                          (log st) in
          class_idx ← subscript (category_mapping !! category_id);
          match sg with
          | SegRLE rle =>
              ret ← rle_to_yolo_polygon (RleDict rle) img_height img_width true 1;
              '(yolo_polygon, raw_polygon) ← unpack2 ret;
              if yolo_polygon is [] then Ok (print (WarnNoContours id) st)
              else
                let new_ann :=
                  Annotation (ann_id ann) (Some image_id) (Some category_id)
                    (Some (SegList [PList (inject_Z <$> raw_polygon)]))
                    (ann_rest ann) in
                Ok (accept image_id (class_idx, yolo_polygon) new_ann st)
          | SegList poly_list =>
              pts ← poly_points poly_list;
              yolo_polygon ← normalize pts img_width img_height;
              Ok (accept image_id (class_idx, yolo_polygon) ann st)
          | SegOther => Ok (print (WarnUnknownFormat id) st)
          end
      end
  | _, _, _, _ =>
      match ann_id ann with
      | Some id =>
          if decide (ann_len ann = 1%nat) then Ok (print (WarnTruncated id) st)
          else Ok (print (WarnMissingFields ann) st)
      | None => Ok (print (WarnMissingFields ann) st)
      end
  end.

(** Lines 194-204: one [open(label_path, 'w')] per entry of
    [image_annotations], each with the lines written to it. *)
Definition write_labels (image_id_to_info : gmap Z img_info)
    (image_annotations : list (Z * list (nat * list Q)))
    : result (list (string * list (nat * list Q))) :=
  mapM (M:=result) (fun entry =>
          img_info ← subscript (image_id_to_info !! entry.1);
          let base_name := (splitext (info_file_name img_info)).1 in
          Ok (base_name +:+ ".txt", entry.2)) image_annotations.

(** What a run leaves behind: the label files (as the sequence of files
    written, a later one replacing an earlier one of the same name), the
    per-image label sets they were written from, the rewritten dataset and
    the messages printed. *)
Record output : Type := Output {
  label_files : list (string * list (nat * list Q));
  labels : list (Z * list (nat * list Q));
  data : dataset;
  messages : list log_msg
}.

Definition convert_json_to_yolo_labels (data : dataset) : result output :=
  image_id_to_info ← build_image_info (images data);
  let cm := build_category_mapping data in
  st ← foldM (process_annotation image_id_to_info cm.1) (State [] [] cm.2) (annotations data);
  files ← write_labels image_id_to_info (image_annotations st);
  Ok (Output files (image_annotations st)
             (Dataset (images data) (categories data) (new_annotations st) (ds_rest data))
             (log st)).
End with_lib.

End GenerateLabels.

(** ** merge_COCO_dataset.py *)

Module MergeCoco.

(** The deduplication key of lines 28-29 and 38-39. *)
Definition fingerprint (img : image) : option Z * option Z * option string :=
  (height img, width img, file_name img).

Definition target_image_fingerprints (target_images : list image)
    : gset (option Z * option Z * option string) :=
  foldl (fun s img => s ∪ {[fingerprint img]}) ∅ target_images.

(** Lines 33-45: the loop over the source images, updating [new_images]
    and [new_image_ids]. *)
Definition scan_source (fps : gset (option Z * option Z * option string))
    (source_images : list image) : list image * gset Z :=
  foldl (fun (acc : list image * gset Z) img =>
           if decide (fingerprint img ∉ fps) then
             (acc.1 ++ [img],
              match img_id img with
              | Some id => acc.2 ∪ {[id]}
              | None => acc.2
              end)
           else acc)
        ([], ∅) source_images.

(** ['image_id' in anno and anno['image_id'] in new_image_ids] *)
Definition of_new_image (new_image_ids : gset Z) (anno : annotation) : Prop :=
  match image_id anno with
  | Some id => id ∈ new_image_ids
  | None => False
  end.

#[export] Instance of_new_image_dec ids anno : Decision (of_new_image ids anno).
Proof. unfold of_new_image. destruct (image_id anno); apply _. Defined.

(** Lines 52-61. *)
Definition select_annotations (new_images : list image) (new_image_ids : gset Z)
    (source_annotations : list annotation) : list annotation :=
  if decide (new_image_ids ≠ ∅) then
    filter (of_new_image new_image_ids) source_annotations
  else take (length new_images) source_annotations.

(** The dictionary the function returns. *)
Record stats : Type := Stats {
  new_images_added : nat;
  new_annotations_added : nat;
  total_images : nat;
  total_annotations : nat
}.

(** The merged dataset is what [json.dump] writes to the output file. *)
Definition merge_annotation_files (source_data target_data : dataset) : dataset * stats :=
  let fps := target_image_fingerprints (images target_data) in
  let scanned := scan_source fps (images source_data) in
  let new_images := scanned.1 in
  let new_image_ids := scanned.2 in
  let new_annotations := select_annotations new_images new_image_ids (annotations source_data) in
  let merged :=
    Dataset (images target_data ++ new_images) (categories target_data)
            (annotations target_data ++ new_annotations) (ds_rest target_data) in
  (merged,
   Stats (length new_images) (length new_annotations)
         (length (images merged)) (length (annotations merged))).

End MergeCoco.

(** ** split_COCO_dataset.py *)

Module SplitCoco.

(** [int(x)] for a number: truncation towards zero. *)
Definition int (x : Q) : Z :=
  if Qle_bool 0 x then Qfloor x else Qceiling x.

(** [l[:k]] and [l[k:]]; a negative [k] counts from the end. *)
Definition slice_to {A} (l : list A) (k : Z) : list A :=
  if decide (k < 0) then take (Z.to_nat (Z.of_nat (length l) + k)) l
  else take (Z.to_nat k) l.

Definition slice_from {A} (l : list A) (k : Z) : list A :=
  if decide (k < 0) then drop (Z.to_nat (Z.of_nat (length l) + k)) l
  else drop (Z.to_nat k) l.

(** Lines 38-40: [category_to_annotations], a [defaultdict(list)]. *)
Definition group_by_category (annotations : list annotation)
    : result (list (Z * list annotation)) :=
  foldM (fun d ann =>
           c ← subscript (category_id ann);
           Ok (od_alter (fun l => l ++ [ann]) c (od_setdefault c [] d)))
        [] annotations.

(** [{ann['image_id'] for ann in anns}] *)
Definition image_ids (anns : list annotation) : result (gset Z) :=
  foldM (fun (s : gset Z) ann => i ← subscript (image_id ann); Ok (s ∪ {[i]})) ∅ anns.

(** [{img['id']: img for img in images}] *)
Definition image_id_to_info (images : list image) : result (gmap Z image) :=
  foldM (fun (m : gmap Z image) img => i ← subscript (img_id img); Ok (<[i := img]> m)) ∅ images.

(** [{img['id']: old_img_dir_path + img['file_name'] for img in images}] *)
Definition image_id_to_path (old_img_dir_path : string) (images : list image)
    : result (gmap Z string) :=
  foldM (fun (m : gmap Z string) img =>
           i ← subscript (img_id img);
           fn ← subscript (file_name img);
           Ok (<[i := old_img_dir_path +:+ fn]> m)) ∅ images.

(** Lines 56-58 and 60-62: the image list of one output, and the files
    [shutil.copy] is asked to copy. *)
Definition collect_images (info : gmap Z image) (paths : gmap Z string)
    (ids : gset Z) : result (list image * list string) :=
  foldM (fun (acc : list image * list string) img_id =>
           img ← subscript (info !! img_id);
           path ← subscript (paths !! img_id);
           Ok (acc.1 ++ [img], acc.2 ++ [path]))
        ([], []) (elements ids).

(** One output of the split, with the files copied into its directory. *)
Record part : Type := Part {
  coco : dataset;
  copied : list string
}.

Section with_random.
(** [random.shuffle]: the generator state is threaded through the calls,
    and each call returns a rearrangement of its argument. *)
Context {rng : Type} (shuffle : rng -> list annotation -> list annotation * rng).

(** Lines 43-51: the loop over [category_to_annotations.items()]. *)
Definition split_categories (train_ratio : Q) (g : rng)
    (groups : list (Z * list annotation)) : list annotation * list annotation * rng :=
  foldl (fun (acc : list annotation * list annotation * rng) group =>
           let '(train, val, g) := acc in
           let '(anns, g') := shuffle g group.2 in
           let split_idx := int (inject_Z (Z.of_nat (length anns)) * train_ratio)%Q in
           (train ++ slice_to anns split_idx, val ++ slice_from anns split_idx, g'))
        ([], [], g) groups.

Definition split_coco_dataset_by_category (coco_data : dataset)
    (old_img_dir_path : string) (train_ratio : Q) (g : rng) : result (part * part) :=
  let images := images coco_data in
  let annotations := annotations coco_data in
  categories ← subscript (categories coco_data);
  info ← image_id_to_info images;
  paths ← image_id_to_path old_img_dir_path images;
  groups ← group_by_category annotations;
  let '(train_anns, val_anns, _) := split_categories train_ratio g groups in
  train_image_ids ← image_ids train_anns;
  val_image_ids ← image_ids val_anns;
  train ← collect_images info paths train_image_ids;
  val ← collect_images info paths val_image_ids;
  Ok (Part (Dataset train.1 (Some categories) train_anns []) train.2,
      Part (Dataset val.1 (Some categories) val_anns []) val.2).
End with_random.

End SplitCoco.

(** ** make_image_list.py *)

Module MakeImageList.

Set Warnings "-register-all".

(** What [json.load] returns.  An object is kept as the list of its
    entries, in document order and with distinct keys. *)
Inductive json : Type :=
  | JNull
  | JBool (b : bool)
  | JNum (q : Q)
  | JStr (s : string)
  | JArr (items : list json)
  | JObj (entries : list (string * json)).

(** [d[key]] for a key that may be absent; [key in d] is [is_Some]. *)
Fixpoint get (key : string) (entries : list (string * json)) : option json :=
  match entries with
  | [] => None
  | (k, v) :: rest => if decide (k = key) then Some v else get key rest
  end.

(** Lines 6-29. *)
Fixpoint extract_image_names (json_data : json) (key_name : string) : list json :=
  match json_data with
  | JArr items =>
      (fix loop (items : list json) : list json :=
         match items with
         | [] => []
         | item :: rest =>
             match item with
             | JObj entries =>
                 match get key_name entries with
                 | Some name => [name]
                 | None => extract_image_names item key_name
                 end
             | JArr _ => extract_image_names item key_name
             | _ => []
             end ++ loop rest
         end) items
  | JObj entries =>
      match get key_name entries with
      | Some name => [name]
      | None =>
          (fix loop (entries : list (string * json)) : list json :=
             match entries with
             | [] => []
             | (_, value) :: rest =>
                 match value with
                 | JObj _ | JArr _ => extract_image_names value key_name
                 | _ => []
                 end ++ loop rest
             end) entries
      end
  | _ => []
  end.

(** The messages of [main]. *)
Inductive message : Type :=
  | ErrorNotFound
  | WarningNoNames
  | Successfully (n : nat)
  | ErrorInvalidJson
  | ErrorException.

(** What [main] leaves behind: its return value, the lines of the manifest
    when the file was opened for writing, and the messages printed. *)
Record outcome : Type := Outcome {
  code : Z;
  manifest : option (list string);
  printed : list message
}.

Section with_os.
(** [os.path.join] on the four path components of line 70. *)
Context (join : string -> string -> string -> string -> string).

(** Lines 69-71: the lines written before a name that is not a string
    makes [os.path.join] raise, and whether the loop reached its end. *)
Fixpoint write_names (output_dir output_tag : string) (names : list json)
    : list string * bool :=
  match names with
  | [] => ([], true)
  | JStr name :: rest =>
      let '(lines, finished) := write_names output_dir output_tag rest in
      (join output_dir "images" output_tag name :: lines, finished)
  | _ :: _ => ([], false)
  end.

(** Lines 31-82, for the constants of lines 39-43.  [file] is [None] when
    the JSON file does not exist, and holds [None] when it does not parse. *)
Definition main (file : option (option json)) : outcome :=
  let output_tag := "test" in
  let output_dir := "./data/dataset" in
  let key := "file_name" in
  match file with
  | None => Outcome 1 None [ErrorNotFound]
  | Some None => Outcome 1 None [ErrorInvalidJson]
  | Some (Some json_data) =>
      let image_names := extract_image_names json_data key in
      let warning := if image_names is [] then [WarningNoNames] else [] in
      let '(lines, finished) := write_names output_dir output_tag image_names in
      if finished then
        Outcome 0 (Some lines) (warning ++ [Successfully (length image_names)])
      else Outcome 1 (Some lines) (warning ++ [ErrorException])
  end.
End with_os.

End MakeImageList.

(** ** Notions used to state the properties *)

Module Spec.
Import GenerateLabels.

(** The normalization loop, by recursion on the coordinate list. *)
Fixpoint normalize_pairs (p : list pelem) (w h : Z) : result (list Q) :=
  match p with
  | [] => Ok []
  | xi :: rest =>
      x ← div xi w;
      match rest with
      | [] => Raise IndexError
      | yi :: rest' =>
          y ← div yi h;
          out ← normalize_pairs rest' w h;
          Ok (x :: y :: out)
      end
  end.

(** The image dimension a coordinate at position [i] is measured against:
    the width for an x (even position), the height for a y. *)
Definition dim (w h : Z) (i : nat) : Q :=
  inject_Z (if Nat.even i then w else h).

(** The spec's polygon normalization: every x divided by the width, every
    y by the height, in place. *)
Definition unit_space (p : list Q) (w h : Z) : list Q :=
  imap (fun i x => x / dim w h i)%Q p.

(** Multiplying unit-space coordinates back by the image dimensions. *)
Definition pixel_space (out : list Q) (w h : Z) : list Q :=
  imap (fun i v => v * dim w h i)%Q out.

(** [sel] sits at position [k] of [l], no element of [l] is longer, and
    every element before position [k] is strictly shorter. *)
Definition first_longest (l : list (list Q)) (k : nat) (sel : list Q) : Prop :=
  l !! k = Some sel ∧
  (∀ j p, l !! j = Some p → (length p ≤ length sel)%nat) ∧
  (∀ j p, (j < k)%nat → l !! j = Some p → (length p < length sel)%nat).

(** The number of vertices of a flat coordinate list. *)
Definition vertex_count (p : list Q) : nat := Nat.div2 (length p).

Section converter.
Context `{Lib}.

(** The state once line 140 has made sure the image has a label set. *)
Definition dispatched (image_id : Z) (st : state) : state :=
  State (new_annotations st) (od_setdefault image_id [] (image_annotations st)) (log st).

(** An annotation that passes the checks of lines 122 and 131. *)
Definition well_formed (info : gmap Z img_info) (ann : annotation) : Prop :=
  is_Some (ann_id ann) ∧ is_Some (category_id ann) ∧ is_Some (segmentation ann) ∧
  ∃ i, image_id ann = Some i ∧ is_Some (info !! i).

End converter.

(** [d.get(k)] on an insertion-ordered dictionary. *)
Fixpoint od_get {V} (k : Z) (d : list (Z * V)) : option V :=
  match d with
  | [] => None
  | (k', v) :: d' => if decide (k' = k) then Some v else od_get k d'
  end.

(** The number of annotations of [anns] that belong to image [i]. *)
Definition count_image (i : Z) (anns : list annotation) : nat :=
  length (filter (fun a => image_id a = Some i) anns).

(** Every image with an accepted annotation has a label set, with one
    label per accepted annotation of that image. *)
Definition consistent (st : GenerateLabels.state) : Prop :=
  NoDup (image_annotations st).*1 ∧
  ∀ i, match od_get i (image_annotations st) with
       | Some ls => length ls = count_image i (new_annotations st)
       | None => count_image i (new_annotations st) = 0%nat
       end.

(** The reading of "an image with no accepted annotation has no label
    set" on one dataset. *)
Definition no_label_set_without_accepted `{Lib} (data : dataset) : Prop :=
  ∀ out i,
    convert_json_to_yolo_labels data = Ok out →
    count_image i (annotations (GenerateLabels.data out)) = 0%nat →
    i ∉ (labels out).*1.

(** The annotation carries the identifier of one of the images [imgs]. *)
Definition annotates (imgs : list image) (anno : annotation) : Prop :=
  match image_id anno with
  | Some id => Some id ∈ img_id <$> imgs
  | None => False
  end.

#[export] Instance annotates_dec imgs anno : Decision (annotates imgs anno).
Proof. unfold annotates. destruct (image_id anno); apply _. Defined.

(** The source images whose fingerprint no target image has. *)
Definition unseen (target_images source_images : list image) : list image :=
  filter (fun img => MergeCoco.fingerprint img ∉ MergeCoco.fingerprint <$> target_images)
         source_images.

(** The number of annotations of [anns] that belong to category [c]. *)
Definition count_category (c : Z) (anns : list annotation) : nat :=
  length (filter (fun a => category_id a = Some c) anns).

(** All the annotations of a group belong to the group's category. *)
Definition homogeneous (group : Z * list annotation) : Prop :=
  Forall (fun a => category_id a = Some group.1) group.2.

(** What a group contributes to the train set of category [c] and to its
    val set. *)
Definition train_share (r : Q) (n : nat) : nat :=
  Z.to_nat (Qfloor (inject_Z (Z.of_nat n) * r)).

Definition val_share (r : Q) (n : nat) : nat := (n - train_share r n)%nat.

Definition share_of (share : nat -> nat) (c : Z) (group : Z * list annotation) : nat :=
  if decide (group.1 = c) then share (length group.2) else 0%nat.

#[global] Arguments count_category : simpl never.
#[global] Arguments count_image : simpl never.
#[global] Arguments share_of : simpl never.

End Spec.

(** ** Notions used to state further properties *)

Module Spec2.
Import GenerateLabels MakeImageList.

(** [name] is the value of [key] in some object of the document. *)
Inductive stored (key : string) (name : json) : json -> Prop :=
  | stored_here entries :
      get key entries = Some name → stored key name (JObj entries)
  | stored_in_item items item :
      item ∈ items → stored key name item → stored key name (JArr items)
  | stored_in_value entries k value :
      (k, value) ∈ entries → stored key name value → stored key name (JObj entries).

(** [name] is the value of [key] in an object of the document that is not
    nested in another object with that key. *)
Inductive outermost (key : string) (name : json) : json -> Prop :=
  | outermost_here entries :
      get key entries = Some name → outermost key name (JObj entries)
  | outermost_in_item items item :
      item ∈ items → outermost key name item → outermost key name (JArr items)
  | outermost_in_value entries k value :
      get key entries = None → (k, value) ∈ entries →
      outermost key name value → outermost key name (JObj entries).

(** [c] sits at position [k] of [contours], no contour has a greater area,
    and every contour before position [k] has a strictly smaller one. *)
Definition first_largest `{Lib} (contours : list contour) (k : nat) (c : contour) : Prop :=
  contours !! k = Some c ∧
  (∀ j c', contours !! j = Some c' → (contourArea c' <= contourArea c)%Q) ∧
  (∀ j c', (j < k)%nat → contours !! j = Some c' → (contourArea c' < contourArea c)%Q).

(** An image entry with the four fields the converter reads. *)
Definition complete (img : image) : Prop :=
  is_Some (img_id img) ∧ is_Some (file_name img) ∧
  is_Some (width img) ∧ is_Some (height img).

(** [a'] is [a], or [a] with its run-length encoding replaced by one
    polygon. *)
Definition rewritten (a a' : annotation) : Prop :=
  a' = a ∨
  ∃ rle raw,
    segmentation a = Some (SegRLE rle) ∧
    a' = Annotation (ann_id a) (image_id a) (category_id a)
                    (Some (SegList [PList raw])) (ann_rest a).

(** The segmentation of the annotation is a list. *)
Definition polygon_form (a : annotation) : Prop :=
  ∃ l, segmentation a = Some (SegList l).

(** The number of classes of a run: the declared categories, or else the
    distinct category identifiers the annotations refer to. *)
Definition class_count (data : dataset) : nat :=
  match categories data with
  | Some cats => length cats
  | None => base.size (unique_cats (annotations data))
  end.

(** A label line the label format can hold: a class index below the number
    of classes, followed by whole (x, y) pairs. *)
Definition valid_label (classes : nat) (label : nat * list Q) : Prop :=
  (label.1 < classes)%nat ∧ Nat.Even (length label.2).

(** The labels a mapping can produce. *)
Definition label_of_mapping (cm : gmap Z nat) (label : nat * list Q) : Prop :=
  (∃ cid, cm !! cid = Some label.1) ∧ Nat.Even (length label.2).

(** One turn of the loop of lines 94-99. *)
Definition image_info_step (m : gmap Z img_info) (image : image) : result (gmap Z img_info) :=
  fn ← subscript (file_name image);
  w ← subscript (width image);
  h ← subscript (height image);
  id ← subscript (img_id image);
  Ok (<[id := ImgInfo fn w h]> m).

(** A dataset the split script runs on: it has a category list, its images
    have an id and a file name, and its annotations have a category and
    refer to a listed image. *)
Definition splittable (d : dataset) : Prop :=
  is_Some (categories d) ∧
  Forall (fun img => is_Some (img_id img) ∧ is_Some (file_name img)) (images d) ∧
  Forall (fun a => is_Some (category_id a) ∧
                   ∃ i, image_id a = Some i ∧ Some i ∈ img_id <$> images d)
         (annotations d).

(** An annotation that refers to one of the images. *)
Definition refers_to (images : list image) (a : annotation) : Prop :=
  ∃ i, image_id a = Some i ∧ Some i ∈ img_id <$> images.

(** Everything a completed split computed on the way. *)
Definition split_trace {rng : Type}
    (shuffle : rng -> list annotation -> list annotation * rng)
    (data : dataset) (dir : string) (r : Q) (g : rng)
    (train val : SplitCoco.part) : Prop :=
  ∃ cats info paths groups g' (tids vids : gset Z),
    categories data = Some cats ∧
    SplitCoco.image_id_to_info (images data) = Ok info ∧
    SplitCoco.image_id_to_path dir (images data) = Ok paths ∧
    SplitCoco.group_by_category (annotations data) = Ok groups ∧
    SplitCoco.split_categories shuffle r g groups
      = (annotations (SplitCoco.coco train), annotations (SplitCoco.coco val), g') ∧
    annotations (SplitCoco.coco train) ++ annotations (SplitCoco.coco val) ≡ₚ annotations data ∧
    categories (SplitCoco.coco train) = Some cats ∧ categories (SplitCoco.coco val) = Some cats ∧
    ds_rest (SplitCoco.coco train) = [] ∧ ds_rest (SplitCoco.coco val) = [] ∧
    (∀ i, i ∈ tids ↔ ∃ a, a ∈ annotations (SplitCoco.coco train) ∧ image_id a = Some i) ∧
    (∀ i, i ∈ vids ↔ ∃ a, a ∈ annotations (SplitCoco.coco val) ∧ image_id a = Some i) ∧
    Forall2 (fun i img => info !! i = Some img) (elements tids) (images (SplitCoco.coco train)) ∧
    Forall2 (fun i img => info !! i = Some img) (elements vids) (images (SplitCoco.coco val)) ∧
    Forall2 (fun i path => paths !! i = Some path) (elements tids) (SplitCoco.copied train) ∧
    Forall2 (fun i path => paths !! i = Some path) (elements vids) (SplitCoco.copied val).

(** The labels collected for image [i]: none when the image has no entry. *)
Definition label_set (i : Z) (d : list (Z * list (nat * list Q))) : list (nat * list Q) :=
  default [] (Spec.od_get i d).

End Spec2.

(** ** A stand-in for the libraries, and sample datasets

    The converter is parametric in the library calls.  To run it on
    concrete datasets, [toy_lib] supplies a simple implementation: masks
    are decoded from uncompressed column-major run lengths, the only
    contour reported is the bounding box of the foreground, its area is the
    box area and simplification leaves it alone. *)

Module Samples.
Import GenerateLabels.

(** Alternating background/foreground runs, as a flat pixel list. *)
Fixpoint runs (fg : bool) (counts : list Z) : list bool :=
  match counts with
  | [] => []
  | n :: counts' => replicate (Z.to_nat n) fg ++ runs (negb fg) counts'
  end.

(** Row [r] of a column-major pixel list for [h] rows and [w] columns. *)
Definition row_of (flat : list bool) (h w r : nat) : list bool :=
  (fun c => default false (flat !! (c * h + r)%nat)) <$> seq 0 w.

Definition toy_decode (rle : rle_obj) : result binary_mask :=
  match size rle with
  | [h; w] =>
      let flat := runs false (counts rle) in
      if decide (length flat = (Z.to_nat h * Z.to_nat w)%nat) then
        Ok ((fun r => row_of flat (Z.to_nat h) (Z.to_nat w) r) <$> seq 0 (Z.to_nat h))
      else Raise ValueError
  | _ => Raise ValueError
  end.

(** The coordinates [(x, y)] of the foreground pixels. *)
Definition foreground (m : binary_mask) : list (Z * Z) :=
  mjoin (imap (fun y row =>
           omap (fun xb : nat * bool => if xb.2 then Some (Z.of_nat xb.1, Z.of_nat y) else None)
                (imap pair row)) m).

Definition toy_findContours (m : binary_mask) : list contour :=
  match foreground m with
  | [] => []
  | (x, y) :: rest =>
      let x0 := foldr Z.min x (fst <$> rest) in
      let x1 := foldr Z.max x (fst <$> rest) in
      let y0 := foldr Z.min y (snd <$> rest) in
      let y1 := foldr Z.max y (snd <$> rest) in
      [[(x0, y0); (x0, y1); (x1, y1); (x1, y0)]]
  end.

Definition toy_contourArea (c : contour) : Q :=
  match c with
  | [(x0, y0); _; (x1, y1); _] => inject_Z ((x1 - x0) * (y1 - y0))
  | _ => 0
  end.

(** Everything before the last dot, when there is one. *)
Fixpoint toy_stem (s : string) : option string :=
  match s with
  | EmptyString => None
  | String c s' =>
      match toy_stem s' with
      | Some t => Some (String c t)
      | None => if Ascii.eqb c (Ascii.ascii_of_nat 46) then Some EmptyString else None
      end
  end.

Definition toy_splitext (s : string) : string * string :=
  match toy_stem s with
  | Some t => (t, String.substring (String.length t) (String.length s - String.length t) s)
  | None => (s, EmptyString)
  end.

Definition toy_lib : Lib :=
  {| decode := toy_decode;
     findContours := toy_findContours;
     contourArea := toy_contourArea;
     approxPolyDP := fun c _ _ => c;
     splitext := toy_splitext |}.

Definition img (id : Z) (name : string) (w h : Z) : image :=
  Image (Some id) (Some name) (Some w) (Some h).

Definition ann (id image category : Z) (s : seg) : annotation :=
  Annotation (Some id) (Some image) (Some category) (Some s) [].

(** One 4x2 image, one category, and a well-formed four-point polygon. *)
Definition one_image : list image := [img 1 "a.jpg" 4 2].
Definition one_category : option (list category) := Some [Category 7 "tool"].
Definition square : seg := SegList [PNum 0; PNum 0; PNum 2; PNum 0; PNum 2; PNum 2; PNum 0; PNum 2].

(** An annotation whose mask is all background, followed by a good one. *)
Definition empty_mask_dataset : dataset :=
  Dataset one_image one_category
          [ann 1 1 7 (SegRLE (Rle [4] [2; 2])); ann 2 1 7 square] [].

(** An annotation of a category that is not declared, followed by a good one. *)
Definition unknown_category_dataset : dataset :=
  Dataset one_image one_category [ann 1 1 8 square; ann 2 1 7 square] [].

(** An annotation with an empty segmentation list, followed by a good one. *)
Definition empty_polygon_dataset : dataset :=
  Dataset one_image one_category [ann 1 1 7 (SegList []); ann 2 1 7 square] [].

(** An image whose only annotation has a segmentation of unknown shape. *)
Definition unknown_format_dataset : dataset :=
  Dataset one_image one_category [ann 1 1 7 SegOther] [].

(** The merge scenario: target images A and B, source images B and C. *)
Definition image_A : image := img 1 "A.jpg" 100 100.
Definition image_B : image := img 2 "B.jpg" 200 150.
Definition image_C : image := img 3 "C.jpg" 64 48.

Definition merge_target : dataset :=
  Dataset [image_A; image_B] one_category [ann 1 1 7 square; ann 2 2 7 square]
          [("info", "target")].

Definition merge_source : dataset :=
  Dataset [image_B; image_C] one_category
          [ann 10 2 7 square; ann 11 3 7 square; ann 12 3 7 square]
          [("info", "source")].

(** The split scenario: two categories with ten annotations each, spread
    over four images. *)
Definition split_sample : dataset :=
  Dataset [img 1 "a.jpg" 4 2; img 2 "b.jpg" 4 2; img 3 "c.jpg" 4 2; img 4 "d.jpg" 4 2]
          (Some [Category 1 "clamp"; Category 2 "probe"])
          ((fun k : nat =>
              ann (Z.of_nat k) (Z.of_nat (k mod 4) + 1) (if (k <? 10)%nat then 1 else 2) square)
             <$> seq 0 20)
          [].

(** A shuffle that can be run: the list backwards, with no generator state. *)
Definition backwards (g : unit) (l : list annotation) : list annotation * unit :=
  (reverse l, g).

End Samples.

(** * Properties *)

Import GenerateLabels Spec.

(** ** The error monad and the loops *)

Lemma bind_Ok {A B} (f : A -> result B) (r : result A) (b : B) :
  r ≫= f = Ok b ↔ ∃ a, r = Ok a ∧ f a = Ok b.
Proof.
  destruct r as [a|e]; simpl; split.
  - eauto.
  - by intros (? & [= <-] & ?).
  - done.
  - by intros (? & ? & ?).
Qed.

Lemma foldM_app {A B} (body : B -> A -> result B) acc l1 l2 :
  foldM body acc (l1 ++ l2) = foldM body acc l1 ≫= fun acc' => foldM body acc' l2.
Proof.
  revert acc. induction l1 as [|x l1 IH]; intros acc; simpl; [done|].
  destruct (body acc x); simpl; [apply IH | done].
Qed.

Lemma foldM_raise {A B} (body : B -> A -> result B) acc x l e :
  body acc x = Raise e → foldM body acc (x :: l) = Raise e.
Proof. intros Hx. simpl. by rewrite Hx. Qed.

(** Lists taken two elements at a time. *)
Lemma pair_ind {A} (P : list A -> Prop) :
  P [] → (∀ x, P [x]) → (∀ x y l, P l → P (x :: y :: l)) → ∀ l, P l.
Proof.
  intros Hnil Hone Hstep l.
  assert (P l ∧ ∀ x, P (x :: l)) as [? _]; [|done].
  induction l as [|y l [IH1 IH2]]; split; auto.
Qed.

Lemma range2_SS n : range2 (S (S n)) = 0%nat :: ((fun i => S (S i)) <$> range2 n).
Proof.
  unfold range2. replace (S (S n) + 1)%nat with (S (S (n + 1))) by lia.
  simpl Nat.div2. simpl seq. rewrite fmap_cons. f_equal.
  rewrite <- fmap_S_seq, <- !list_fmap_compose.
  apply list_fmap_ext. intros _ k _. simpl. lia.
Qed.

(** ** Coordinate normalization *)

Lemma normalize_loop_shift x y p w h out :
  foldM (normalize_step (x :: y :: p) w h) out ((fun i => S (S i)) <$> range2 (length p)) =
  foldM (normalize_step p w h) out (range2 (length p)).
Proof.
  generalize (range2 (length p)) as idxs. intros idxs. revert out.
  induction idxs as [|i idxs IH]; intros out; [done|].
  rewrite fmap_cons. simpl foldM.
  assert (normalize_step (x :: y :: p) w h out (S (S i)) = normalize_step p w h out i) as ->.
  { unfold normalize_step, index. simpl. done. }
  destruct (normalize_step p w h out i); simpl; [apply IH | done].
Qed.

Lemma normalize_step_acc p w h out acc i :
  normalize_step p w h (out ++ acc) i =
  normalize_step p w h acc i ≫= fun r => Ok (out ++ r).
Proof.
  unfold normalize_step.
  destruct (index p i) as [xi|]; simpl; [|done].
  destruct (div xi w) as [x|]; simpl; [|done].
  destruct (index p (i + 1)) as [yi|]; simpl; [|done].
  destruct (div yi h) as [y|]; simpl; [|done].
  by rewrite <- (assoc_L (++)).
Qed.

Lemma normalize_loop_acc p w h out :
  foldM (normalize_step p w h) out (range2 (length p)) =
  normalize p w h ≫= fun r => Ok (out ++ r).
Proof.
  unfold normalize. generalize (range2 (length p)) as idxs. intros idxs.
  assert (∀ acc, foldM (normalize_step p w h) (out ++ acc) idxs =
                 foldM (normalize_step p w h) acc idxs ≫= fun r => Ok (out ++ r)) as Hgen.
  { induction idxs as [|i idxs IH]; intros acc; [done|].
    cbn [foldM]. rewrite normalize_step_acc.
    destruct (normalize_step p w h acc i) as [acc'|]; simpl; [apply IH | done]. }
  specialize (Hgen []). by rewrite app_nil_r in Hgen.
Qed.

Lemma normalize_step_0 x y p w h out :
  normalize_step (x :: y :: p) w h out 0 =
  div x w ≫= fun x' => div y h ≫= fun y' => Ok (out ++ [x'; y']).
Proof. done. Qed.

Lemma normalize_unfold p w h : normalize p w h = normalize_pairs p w h.
Proof.
  induction p as [| x | x y p IH] using pair_ind.
  - done.
  - unfold normalize. cbn. unfold normalize_step, index. cbn.
    by destruct (div x w).
  - unfold normalize. simpl length. rewrite range2_SS. cbn [foldM].
    rewrite normalize_step_0. cbn [normalize_pairs].
    destruct (div x w) as [x'|]; cbn; [|done].
    destruct (div y h) as [y'|]; cbn; [|done].
    by rewrite normalize_loop_shift, normalize_loop_acc, IH.
Qed.

Lemma dim_SS w h i : dim w h (S (S i)) = dim w h i.
Proof. done. Qed.

Lemma unit_space_cons2 x y p w h :
  unit_space (x :: y :: p) w h =
  (x / inject_Z w)%Q :: (y / inject_Z h)%Q :: unit_space p w h.
Proof.
  unfold unit_space. rewrite !imap_cons. do 2 f_equal.
Qed.

Lemma pixel_space_cons2 x y p w h :
  pixel_space (x :: y :: p) w h =
  (x * inject_Z w)%Q :: (y * inject_Z h)%Q :: pixel_space p w h.
Proof.
  unfold pixel_space. rewrite !imap_cons. do 2 f_equal.
Qed.

Lemma normalize_numbers (p : list Q) w h :
  w ≠ 0 → h ≠ 0 →
  normalize (PNum <$> p) w h =
  if Nat.even (length p) then Ok (unit_space p w h) else Raise IndexError.
Proof.
  intros Hw Hh. rewrite normalize_unfold.
  induction p as [| x | x y p IH] using pair_ind.
  - done.
  - cbn. by rewrite decide_False.
  - rewrite unit_space_cons2.
    change (Nat.even (length (x :: y :: p))) with (Nat.even (length p)).
    rewrite !fmap_cons. cbn [normalize_pairs div].
    rewrite !decide_False by done. cbn [mbind result_bind]. rewrite IH.
    by destruct (Nat.even (length p)).
Qed.

Lemma inject_Z_nonzero z : z ≠ 0 → ¬ (inject_Z z == 0)%Q.
Proof. intros Hz Heq. apply Hz. unfold Qeq in Heq. simpl in Heq. lia. Qed.

Lemma pixel_unit_space p w h :
  w ≠ 0 → h ≠ 0 → Forall2 Qeq (pixel_space (unit_space p w h) w h) p.
Proof.
  intros Hw Hh. induction p as [| x | x y p IH] using pair_ind.
  - constructor.
  - repeat constructor. cbn. unfold dim. cbn.
    rewrite Qmult_comm. apply Qmult_div_r. by apply inject_Z_nonzero.
  - rewrite unit_space_cons2, pixel_space_cons2.
    constructor; [|constructor; [|done]].
    + rewrite Qmult_comm. apply Qmult_div_r. by apply inject_Z_nonzero.
    + rewrite Qmult_comm. apply Qmult_div_r. by apply inject_Z_nonzero.
Qed.

Lemma range2_in_bounds n :
  Forall (fun i => (i < n ∧ i + 1 < n)%nat) (range2 n) ↔ Nat.Even n.
Proof.
  unfold range2. rewrite Forall_fmap, Forall_forall. split.
  - intros Hall. destruct (Nat.Even_or_Odd n) as [|[k Hk]]; [done|].
    specialize (Hall k). cbn in Hall.
    assert (Nat.div2 (n + 1) = S k) as Hd.
    { replace (n + 1)%nat with (2 * S k)%nat by lia. apply Nat.div2_double. }
    rewrite Hd in Hall. pose proof (Hall ltac:(apply elem_of_seq; lia)). lia.
  - intros [k Hk] i Hi. apply elem_of_seq in Hi. cbn.
    assert (Nat.div2 (n + 1) = k) as Hd.
    { replace (n + 1)%nat with (S (2 * k)) by lia. apply Nat.div2_succ_double. }
    lia.
Qed.

(** ** Dictionary comprehensions *)

Lemma dict_of_snoc `{Countable K} {V} (kvs : list (K * V)) k v :
  dict_of (kvs ++ [(k, v)]) = <[k := v]> (dict_of kvs).
Proof. unfold dict_of. by rewrite foldl_snoc. Qed.

Lemma dict_of_lookup_Some `{Countable K} {V} (kvs : list (K * V)) k v :
  dict_of kvs !! k = Some v → (k, v) ∈ kvs.
Proof.
  induction kvs as [|[k' v'] kvs IH] using rev_ind; [done|].
  rewrite dict_of_snoc, elem_of_app, list_elem_of_singleton.
  intros [[-> ->]|[_ ?]]%lookup_insert_Some; auto.
Qed.

Lemma dict_of_elem_of `{Countable K} {V} (kvs : list (K * V)) k v :
  NoDup kvs.*1 → (k, v) ∈ kvs → dict_of kvs !! k = Some v.
Proof.
  induction kvs as [|[k' v'] kvs IH] using rev_ind; [by intros _ ?%elem_of_nil|].
  rewrite fmap_app, dict_of_snoc. cbn.
  intros (Hnd & Hk' & _)%NoDup_app [Hin|[= -> ->]%list_elem_of_singleton]%elem_of_app.
  - rewrite lookup_insert_ne; [by apply IH|].
    intros ->. apply (Hk' k); [|by left].
    apply list_elem_of_fmap. by exists (k, v).
  - apply lookup_insert_eq.
Qed.

Lemma enumerate_elem_of {A} (l : list A) i x :
  (i, x) ∈ enumerate l ↔ l !! i = Some x.
Proof.
  unfold enumerate. rewrite elem_of_lookup_imap. split.
  - by intros (? & ? & [= -> ->] & ?).
  - intros ?. by exists i, x.
Qed.

(** The mapping built from an enumeration [{key(x): idx for idx, x in
    enumerate(l)}]. *)
Lemma dict_of_enumerate_Some `{Countable K} {A} (key : A -> K) (l : list A) k i :
  dict_of ((fun ix => (key ix.2, ix.1)) <$> enumerate l) !! k = Some i →
  ∃ x, l !! i = Some x ∧ key x = k.
Proof.
  intros ((i' & x) & [= -> ->] & Hin%enumerate_elem_of)%dict_of_lookup_Some%list_elem_of_fmap.
  by exists x.
Qed.

Lemma dict_of_enumerate_NoDup `{Countable K} {A} (key : A -> K) (l : list A) i x :
  NoDup (key <$> l) → l !! i = Some x →
  dict_of ((fun ix => (key ix.2, ix.1)) <$> enumerate l) !! key x = Some i.
Proof.
  intros Hnd Hi. apply dict_of_elem_of.
  - unfold enumerate. rewrite <- list_fmap_compose, fmap_imap.
    by rewrite (imap_ext _ (const key) l), imap_const.
  - apply list_elem_of_fmap. exists (i, x). split; [done|].
    by apply enumerate_elem_of.
Qed.

Lemma StronglySorted_lt_NoDup (l : list Z) : StronglySorted Z.lt l → NoDup l.
Proof.
  induction 1 as [|x l Hs IH Hx]; constructor; [|done].
  rewrite Forall_forall in Hx. intros Hin. specialize (Hx x Hin). lia.
Qed.

(** ** Insertion-ordered dictionaries *)

Lemma od_setdefault_keys {V} (k i : Z) (v : V) (d : list (Z * V)) :
  i ∈ (od_setdefault k v d).*1 ↔ i ∈ d.*1 ∨ i = k.
Proof.
  unfold od_setdefault, od_mem. case_bool_decide as Hk.
  - split; [auto|]. by intros [?| ->].
  - rewrite fmap_app, elem_of_app. cbn. rewrite list_elem_of_singleton. done.
Qed.

Lemma od_alter_keys {V} (f : V -> V) (k : Z) (d : list (Z * V)) :
  (od_alter f k d).*1 = d.*1.
Proof.
  induction d as [|[k' v] d IH]; [done|]. cbn.
  case_decide; cbn; by rewrite ?IH.
Qed.

Lemma od_get_is_Some {V} (k : Z) (d : list (Z * V)) :
  is_Some (od_get k d) ↔ k ∈ d.*1.
Proof.
  induction d as [|[k' v] d IH]; cbn.
  - split; [by intros [? ?] | by intros ?%elem_of_nil].
  - rewrite elem_of_cons. case_decide as Hk; cbn.
    + split; eauto.
    + rewrite IH. split; [auto|]. by intros [->|?].
Qed.

Lemma od_get_elem_of {V} (k : Z) (v : V) (d : list (Z * V)) :
  NoDup d.*1 → (k, v) ∈ d → od_get k d = Some v.
Proof.
  induction d as [|[k' v'] d IH]; cbn; [by intros _ ?%elem_of_nil|].
  intros [Hk' Hd]%NoDup_cons [[= -> ->]|Hin]%elem_of_cons.
  - by rewrite decide_True.
  - rewrite decide_False; [by apply IH|].
    intros ->. apply Hk'. apply list_elem_of_fmap. by exists (k, v).
Qed.

Lemma od_get_snoc {V} (i k : Z) (v : V) (d : list (Z * V)) :
  od_get i (d ++ [(k, v)]) =
  match od_get i d with
  | Some x => Some x
  | None => if decide (k = i) then Some v else None
  end.
Proof.
  induction d as [|[k' v'] d IH]; cbn; [done|].
  by destruct (decide (k' = i)).
Qed.

Lemma od_get_setdefault {V} (i k : Z) (v : V) (d : list (Z * V)) :
  od_get i (od_setdefault k v d) =
  match od_get i d with
  | Some x => Some x
  | None => if decide (k = i) then Some v else None
  end.
Proof.
  unfold od_setdefault, od_mem. case_bool_decide as Hk; [|apply od_get_snoc].
  destruct (od_get i d) eqn:Hi; [done|]. case_decide as Hki; [|done]. subst.
  apply od_get_is_Some in Hk as [? Hk]. congruence.
Qed.

Lemma od_get_alter {V} (f : V -> V) (i k : Z) (d : list (Z * V)) :
  od_get i (od_alter f k d) =
  if decide (k = i) then f <$> od_get i d else od_get i d.
Proof.
  induction d as [|[k' v] d IH]; cbn; [by destruct (decide (k = i))|].
  destruct (decide (k' = k)) as [->|Hk]; cbn.
  - by destruct (decide (k = i)).
  - rewrite IH. destruct (decide (k' = i)) as [->|Hi]; [|done].
    by rewrite decide_False.
Qed.

Lemma od_setdefault_NoDup {V} (k : Z) (v : V) (d : list (Z * V)) :
  NoDup d.*1 → NoDup (od_setdefault k v d).*1.
Proof.
  unfold od_setdefault, od_mem. intros Hd. case_bool_decide as Hk; [done|].
  rewrite fmap_app. apply NoDup_app. split; [done|]. split.
  - intros x Hx ->%list_elem_of_singleton. done.
  - apply NoDup_singleton.
Qed.

(** ** Choosing among sub-polygons *)

Lemma first_longest_snoc_keep l k sel x :
  first_longest l k sel → (length x ≤ length sel)%nat →
  first_longest (l ++ [x]) k sel.
Proof.
  intros (Hk & Hmax & Hfirst) Hx. split; [|split].
  - by apply lookup_app_l_Some.
  - intros j p Hj. apply lookup_snoc_Some in Hj as [[_ Hj]|[_ <-]]; eauto.
  - intros j p Hjk Hj. apply lookup_snoc_Some in Hj as [[_ Hj]|[Hlen <-]]; [eauto|].
    apply lookup_lt_Some in Hk. lia.
Qed.

Lemma first_longest_snoc_replace l k sel x :
  first_longest l k sel → (length sel < length x)%nat →
  first_longest (l ++ [x]) (length l) x.
Proof.
  intros (Hk & Hmax & Hfirst) Hx. split; [|split].
  - by rewrite lookup_app_r, Nat.sub_diag.
  - intros j p Hj. apply lookup_snoc_Some in Hj as [[_ Hj]|[_ <-]]; [|done].
    apply Hmax in Hj. lia.
  - intros j p Hjk Hj. rewrite lookup_app_l in Hj by done.
    apply Hmax in Hj. lia.
Qed.

Lemma max_loop_first_longest rest pre k sel :
  first_longest pre k sel →
  ∃ k' sel',
    max_loop Nat.ltb len (PList sel) (length sel) (PList <$> rest) = Ok (PList sel') ∧
    first_longest (pre ++ rest) k' sel'.
Proof.
  revert pre k sel. induction rest as [|x rest IH]; intros pre k sel Hsel.
  - exists k, sel. by rewrite app_nil_r.
  - rewrite fmap_cons. cbn [max_loop len mbind result_bind].
    rewrite (cons_middle x pre rest), (assoc_L (++)).
    destruct (Nat.ltb_spec (length sel) (length x)).
    + eapply IH, first_longest_snoc_replace; eauto.
    + eapply IH, first_longest_snoc_keep; eauto.
Qed.

Lemma max_key_first_longest p0 rest :
  ∃ k sel,
    max_key Nat.ltb len (PList <$> p0 :: rest) = Ok (PList sel) ∧
    first_longest (p0 :: rest) k sel.
Proof.
  rewrite fmap_cons. cbn [max_key len mbind result_bind].
  apply (max_loop_first_longest rest [p0] 0%nat p0).
  split; [done|]. split.
  - by intros [|j] p [= <-].
  - intros; lia.
Qed.

Lemma vertex_count_le p q :
  Nat.Even (length p) → Nat.Even (length q) →
  (length p ≤ length q)%nat ↔ (vertex_count p ≤ vertex_count q)%nat.
Proof.
  unfold vertex_count. intros [a ->] [b ->]. rewrite !Nat.div2_double. lia.
Qed.

Lemma vertex_count_lt p q :
  Nat.Even (length p) → Nat.Even (length q) →
  (length p < length q)%nat ↔ (vertex_count p < vertex_count q)%nat.
Proof.
  unfold vertex_count. intros [a ->] [b ->]. rewrite !Nat.div2_double. lia.
Qed.

(** ** The annotation loop *)

Section converter.
Context `{Lib}.

Lemma process_polygon info cm st ann id iid cid inf idx poly_list :
  ann_id ann = Some id → image_id ann = Some iid → category_id ann = Some cid →
  segmentation ann = Some (SegList poly_list) →
  info !! iid = Some inf → cm !! cid = Some idx →
  process_annotation info cm st ann =
  pts ← poly_points poly_list;
  yolo_polygon ← normalize pts (info_width inf) (info_height inf);
  Ok (accept iid (idx, yolo_polygon) ann (dispatched iid st)).
Proof.
  intros Hid Hiid Hcid Hseg Hinf Hidx. unfold process_annotation.
  by rewrite Hid, Hiid, Hcid, Hseg, Hinf, Hidx.
Qed.

Lemma process_rle info cm st ann id iid cid inf idx rle :
  ann_id ann = Some id → image_id ann = Some iid → category_id ann = Some cid →
  segmentation ann = Some (SegRLE rle) →
  info !! iid = Some inf → cm !! cid = Some idx →
  process_annotation info cm st ann =
  ret ← rle_to_yolo_polygon (RleDict rle) (info_height inf) (info_width inf) true 1;
  pair ← unpack2 ret;
  if pair.1 is [] then Ok (print (WarnNoContours id) (dispatched iid st))
  else Ok (accept iid (idx, pair.1)
             (Annotation (ann_id ann) (Some iid) (Some cid)
                         (Some (SegList [PList (inject_Z <$> pair.2)])) (ann_rest ann))
             (dispatched iid st)).
Proof.
  intros Hid Hiid Hcid Hseg Hinf Hidx. unfold process_annotation.
  rewrite Hid, Hiid, Hcid, Hseg, Hinf, Hidx. cbn.
  destruct (rle_to_yolo_polygon _ _ _ _ _) as [[|n f]|]; cbn; try done.
Qed.

Lemma process_unknown_category info cm st ann id iid cid sg inf :
  ann_id ann = Some id → image_id ann = Some iid → category_id ann = Some cid →
  segmentation ann = Some sg →
  info !! iid = Some inf → cm !! cid = None →
  process_annotation info cm st ann = Raise KeyError.
Proof.
  intros Hid Hiid Hcid Hseg Hinf Hidx. unfold process_annotation.
  by rewrite Hid, Hiid, Hcid, Hseg, Hinf, Hidx.
Qed.

Lemma poly_points_flat q poly_list :
  poly_points (PNum q :: poly_list) = Ok (PNum q :: poly_list).
Proof. done. Qed.

Lemma poly_points_multi p0 rest :
  ∃ k sel,
    poly_points (PList <$> p0 :: rest) = Ok (PNum <$> sel) ∧
    first_longest (p0 :: rest) k sel.
Proof.
  destruct (max_key_first_longest p0 rest) as (k & sel & Hmax & Hsel).
  exists k, sel. split; [|done].
  unfold poly_points. rewrite Hmax. by rewrite fmap_cons.
Qed.

(** The images with a label set after one more annotation. *)
Lemma process_annotation_keys info cm st ann st' i :
  process_annotation info cm st ann = Ok st' →
  i ∈ (image_annotations st').*1 ↔
  i ∈ (image_annotations st).*1 ∨ (well_formed info ann ∧ image_id ann = Some i).
Proof.
  unfold process_annotation, well_formed.
  destruct (ann_id ann) as [id|] eqn:Hid;
    destruct (image_id ann) as [iid|] eqn:Hiid;
    destruct (category_id ann) as [cid|] eqn:Hcid;
    destruct (segmentation ann) as [sg|] eqn:Hseg;
    try (intros Hst;
         assert (∃ m, st' = print m st) as [m ->]
           by (revert Hst; repeat case_decide; intros [= <-]; eauto);
         cbn; split; [by left | intros [?|[(? & ? & ? & ?) ?]]; [done|]];
         exfalso;
         first [ discriminate
               | repeat match goal with
                        | H : is_Some None |- _ => destruct H as [? [=]]
                        end ]).
  destruct (info !! iid) as [inf|] eqn:Hinf.
  2:{ intros [= <-]. cbn. split; [by left|].
      intros [?|[(_ & _ & _ & j & [= <-] & [? Hj]) _]]; [done|]. congruence. }
  assert (∀ st0, image_annotations st0 =
                 od_setdefault iid [] (image_annotations st) ∨
                 (∃ l a, st0 = accept iid l a (dispatched iid st)) ∨
                 (∃ m, st0 = print m (dispatched iid st)) →
          i ∈ (image_annotations st0).*1 ↔
          i ∈ (image_annotations st).*1 ∨
          ((is_Some (Some id) ∧ is_Some (Some cid) ∧ is_Some (Some sg) ∧
            ∃ j, Some iid = Some j ∧ is_Some (info !! j)) ∧ Some iid = Some i)) as Hkeys.
  { intros st0 Hst0.
    assert (i ∈ (image_annotations st0).*1 ↔
            i ∈ (od_setdefault iid ([] : list (nat * list Q)) (image_annotations st)).*1) as ->.
    { destruct Hst0 as [->|[(l & a & ->)|(m & ->)]]; [done| |done].
      cbn. by rewrite od_alter_keys. }
    rewrite od_setdefault_keys. split.
    - intros [?| ->]; [by left|]. right. split; [|done].
      repeat split; eauto.
    - intros [?|[_ [= ->]]]; auto. }
  destruct (cm !! cid) as [idx|]; cbn; [|done].
  destruct sg as [rle|poly_list|].
  - destruct (rle_to_yolo_polygon _ _ _ _ _) as [[|n f]|]; cbn; try done.
    destruct n; intros [= <-]; apply Hkeys; eauto.
  - destruct (poly_points poly_list) as [pts|]; cbn; [|done].
    destruct (normalize pts _ _) as [yolo|]; cbn; [|done].
    intros [= <-]. apply Hkeys; eauto.
  - intros [= <-]. apply Hkeys; eauto.
Qed.

Lemma process_all_keys info cm anns st st' i :
  foldM (process_annotation info cm) st anns = Ok st' →
  i ∈ (image_annotations st').*1 ↔
  i ∈ (image_annotations st).*1 ∨
  ∃ ann, ann ∈ anns ∧ well_formed info ann ∧ image_id ann = Some i.
Proof.
  revert st. induction anns as [|ann anns IH]; intros st.
  - intros [= <-]. split; [by left|]. intros [?|(? & Hin & _)]; [done|].
    by apply elem_of_nil in Hin.
  - cbn [foldM]. intros (st1 & Hst1 & Hrest)%bind_Ok.
    rewrite (IH _ Hrest), (process_annotation_keys _ _ _ _ _ _ Hst1).
    split.
    + intros [[?|[? ?]]|(a & ? & ? & ?)]; [by left| |].
      * right. exists ann. split; [left|]; done.
      * right. exists a. split; [by right|done].
    + intros [?|(a & [->|?]%elem_of_cons & ? & ?)]; [by do 2 left| |].
      * left. by right.
      * right. by exists a.
Qed.

Lemma process_annotation_shape info cm st ann st' :
  process_annotation info cm st ann = Ok st' →
  (∃ m, st' = print m st) ∨
  ∃ iid, image_id ann = Some iid ∧
    ((∃ m, st' = print m (dispatched iid st)) ∨
     ∃ l a, image_id a = Some iid ∧ st' = accept iid l a (dispatched iid st)).
Proof.
  unfold process_annotation.
  destruct (ann_id ann) as [id|] eqn:Hid;
    destruct (image_id ann) as [iid|] eqn:Hiid;
    destruct (category_id ann) as [cid|] eqn:Hcid;
    destruct (segmentation ann) as [sg|] eqn:Hseg;
    try (repeat case_decide; intros [= <-]; left; by eauto).
  destruct (info !! iid) as [inf|]; [|intros [= <-]; left; by eauto].
  intros Hst. right. exists iid. split; [done|]. revert Hst.
  destruct (cm !! cid) as [idx|]; cbn; [|done].
  destruct sg as [rle|poly_list|].
  - destruct (rle_to_yolo_polygon _ _ _ _ _) as [[|n f]|]; cbn; try done.
    destruct n; intros [= <-]; [left; by eexists|].
    right. do 2 eexists. split; [|reflexivity]. done.
  - destruct (poly_points poly_list) as [pts|]; cbn; [|done].
    destruct (normalize pts _ _) as [yolo|]; cbn; [|done].
    intros [= <-]. right. do 2 eexists. split; [|reflexivity]. done.
  - intros [= <-]. left. by eexists.
Qed.

Lemma consistent_print m st : consistent st → consistent (print m st).
Proof. done. Qed.

Lemma consistent_dispatched iid st : consistent st → consistent (dispatched iid st).
Proof.
  intros [Hnd Hlen]. split; cbn.
  - by apply od_setdefault_NoDup.
  - intros i. rewrite od_get_setdefault. specialize (Hlen i).
    destruct (od_get i (image_annotations st)); [done|].
    by case_decide.
Qed.

Lemma count_image_snoc i anns a :
  count_image i (anns ++ [a]) =
  (count_image i anns + if decide (image_id a = Some i) then 1 else 0)%nat.
Proof.
  unfold count_image. rewrite filter_app, length_app. f_equal.
  rewrite filter_cons, filter_nil. by case_decide.
Qed.

Lemma consistent_accept iid l a st :
  image_id a = Some iid → iid ∈ (image_annotations st).*1 →
  consistent st → consistent (accept iid l a st).
Proof.
  intros Ha Hin [Hnd Hlen]. split.
  - cbn. by rewrite od_alter_keys.
  - intros i. unfold accept. cbn [image_annotations new_annotations].
    rewrite od_get_alter, count_image_snoc, Ha. specialize (Hlen i).
    destruct (decide (iid = i)) as [->|Hi].
    + rewrite decide_True by done.
      apply od_get_is_Some in Hin as [ls Hls]. rewrite Hls in Hlen |- *. cbn.
      rewrite length_app. cbn. lia.
    + rewrite decide_False by congruence.
      destruct (od_get i (image_annotations st)); lia.
Qed.

Lemma process_annotation_consistent info cm st ann st' :
  process_annotation info cm st ann = Ok st' → consistent st → consistent st'.
Proof.
  intros Hst Hc.
  apply process_annotation_shape in Hst
    as [[m ->]|(iid & _ & [[m ->]|(l & a & Ha & ->)])].
  - by apply consistent_print.
  - by apply consistent_print, consistent_dispatched.
  - apply consistent_accept; [done| |by apply consistent_dispatched].
    cbn. apply od_setdefault_keys. by right.
Qed.

Lemma process_all_consistent info cm anns st st' :
  foldM (process_annotation info cm) st anns = Ok st' → consistent st → consistent st'.
Proof.
  revert st. induction anns as [|ann anns IH]; intros st; [by intros [= <-]|].
  cbn [foldM]. intros (st1 & Hst1 & Hrest)%bind_Ok Hc.
  eauto using process_annotation_consistent.
Qed.

Lemma build_image_info_lookup imgs info i :
  build_image_info imgs = Ok info →
  is_Some (info !! i) ↔ ∃ img, img ∈ imgs ∧ img_id img = Some i.
Proof.
  unfold build_image_info.
  assert (∀ m : gmap Z img_info,
    foldM (fun (m : gmap Z img_info) image =>
             fn ← subscript (file_name image);
             w ← subscript (width image);
             h ← subscript (height image);
             id ← subscript (img_id image);
             Ok (<[id := ImgInfo fn w h]> m)) m imgs = Ok info →
    is_Some (info !! i) ↔ is_Some (m !! i) ∨ ∃ img, img ∈ imgs ∧ img_id img = Some i)
    as Hgen.
  { induction imgs as [|img imgs IH]; intros m.
    - intros [= <-]. split; [by left|]. intros [?|(? & ?%elem_of_nil & _)]; done.
    - cbn [foldM]. intros (m1 & Hm1 & Hrest)%bind_Ok.
      destruct (file_name img) as [fn|]; cbn in Hm1; [|done].
      destruct (width img) as [w|]; cbn in Hm1; [|done].
      destruct (height img) as [h|]; cbn in Hm1; [|done].
      destruct (img_id img) as [id|] eqn:Hid; cbn in Hm1; [|done].
      injection Hm1 as <-. rewrite (IH _ Hrest), lookup_insert_is_Some.
      split.
      + intros [[->|[_ ?]]|(img' & ? & ?)]; [|by left|].
        * right. exists img. split; [left|done].
        * right. exists img'. split; [by right|done].
      + intros [?|(img' & [->|?]%elem_of_cons & Hi)].
        * destruct (decide (id = i)); left; [by left|by right].
        * left. left. congruence.
        * right. by exists img'. }
  intros Hinfo. rewrite (Hgen _ Hinfo), lookup_empty.
  split; [|by right]. intros [[? ?]|?]; done.
Qed.

Lemma write_labels_snd info entries files :
  write_labels info entries = Ok files → files.*2 = entries.*2.
Proof.
  unfold write_labels. revert files.
  induction entries as [|[i ls] entries IH]; intros files; [by intros [= <-]|].
  cbn [mapM]. intros (file & Hfile & (files' & Hfiles' & [= <-])%bind_Ok)%bind_Ok.
  cbn. rewrite (IH _ Hfiles'). f_equal.
  cbn in Hfile. destruct (info !! i); cbn in Hfile; [|done]. by injection Hfile as <-.
Qed.

Lemma convert_Ok_inv data out :
  convert_json_to_yolo_labels data = Ok out →
  ∃ info st,
    build_image_info (images data) = Ok info ∧
    foldM (process_annotation info (build_category_mapping data).1)
          (State [] [] (build_category_mapping data).2) (annotations data) = Ok st ∧
    write_labels info (image_annotations st) = Ok (label_files out) ∧
    labels out = image_annotations st ∧
    GenerateLabels.data out =
      Dataset (images data) (categories data) (new_annotations st) (ds_rest data) ∧
    messages out = log st.
Proof.
  unfold convert_json_to_yolo_labels.
  intros (info & Hinfo & (st & Hst & (files & Hfiles & [= <-])%bind_Ok)%bind_Ok)%bind_Ok.
  by exists info, st.
Qed.

Lemma unique_cats_spec anns k :
  k ∈ unique_cats anns ↔ ∃ ann, ann ∈ anns ∧ category_id ann = Some k.
Proof.
  unfold unique_cats.
  induction anns as [|ann anns IH] using rev_ind.
  - cbn. split; [set_solver|]. by intros (? & ?%elem_of_nil & _).
  - rewrite foldl_snoc. setoid_rewrite elem_of_app.
    setoid_rewrite list_elem_of_singleton.
    destruct (category_id ann) as [c|] eqn:Hc.
    + rewrite elem_of_union, elem_of_singleton, IH. split.
      * intros [->|(a & ? & ?)]; [exists ann|exists a]; auto.
      * intros (a & [?| ->] & Ha); [right; by exists a|left; congruence].
    + rewrite IH. split.
      * intros (a & ? & ?). exists a. auto.
      * intros (a & [?| ->] & Ha); [by exists a|congruence].
Qed.

Lemma sorted_spec (s : gset Z) :
  StronglySorted Z.lt (sorted s) ∧ ∀ k, k ∈ sorted s ↔ k ∈ s.
Proof.
  unfold sorted.
  assert (merge_sort Z.le (elements s) ≡ₚ elements s) as Hperm
    by apply merge_sort_Permutation.
  split.
  - assert (NoDup (merge_sort Z.le (elements s))) as Hnd
      by (rewrite Hperm; apply NoDup_elements).
    assert (StronglySorted Z.le (merge_sort Z.le (elements s))) as Hs
      by (apply StronglySorted_merge_sort; apply _).
    revert Hnd. generalize (merge_sort Z.le (elements s)) Hs. clear.
    intros l Hs. induction Hs as [|x l Hs IH Hx]; [constructor|].
    intros [Hxl Hnd]%NoDup_cons. constructor; [by apply IH|].
    rewrite Forall_forall in Hx |- *. intros y Hy.
    specialize (Hx y Hy). assert (x ≠ y) by (by intros ->). lia.
  - intros k. by rewrite Hperm, elem_of_elements.
Qed.

(** Lines 49-53: what a non-empty result of [rle_to_yolo_polygon] holds. *)
Lemma rle_to_yolo_polygon_normalized rle h w simplify epsilon normalized flattened :
  w ≠ 0 → h ≠ 0 →
  rle_to_yolo_polygon rle h w simplify epsilon = Ok (RetPair normalized flattened) →
  normalized = unit_space (inject_Z <$> flattened) w h.
Proof.
  intros Hw Hh. unfold rle_to_yolo_polygon.
  destruct (decode _) as [mask|]; cbn [mbind result_bind]; [|done].
  destruct (findContours mask) as [|c cs]; [done|].
  destruct (max_key Qltb (fun c => Ok (contourArea c)) (c :: cs)) as [largest|];
    cbn [mbind result_bind]; [|done].
  rewrite (list_fmap_compose inject_Z PNum), normalize_numbers by done.
  destruct (Nat.even _); cbn [mbind result_bind]; [|done]. by intros [= <- <-].
Qed.

Lemma rle_no_contours rle h w simplify epsilon mask :
  decode rle = Ok mask → findContours mask = [] →
  rle_to_yolo_polygon (RleDict rle) h w simplify epsilon = Ok RetEmptyList.
Proof. intros Hdec Hc. unfold rle_to_yolo_polygon. rewrite Hdec. cbn. by rewrite Hc. Qed.
End converter.

(** ** Merging *)

Lemma filter_none {A} (P : A -> Prop) `{∀ x, Decision (P x)} (l : list A) :
  (∀ x, ¬ P x) → filter P l = [].
Proof.
  intros HP. induction l as [|x l IH]; [done|].
  by rewrite filter_cons, decide_False.
Qed.

Section merge.
Import MergeCoco.

Lemma target_image_fingerprints_spec imgs fp :
  fp ∈ target_image_fingerprints imgs ↔ fp ∈ fingerprint <$> imgs.
Proof.
  unfold target_image_fingerprints.
  induction imgs as [|img imgs IH] using rev_ind; [set_solver|].
  rewrite foldl_snoc, fmap_app, elem_of_app, elem_of_union, IH. set_solver.
Qed.

Lemma scan_source_spec target_images source_images :
  let scanned := scan_source (target_image_fingerprints target_images) source_images in
  scanned.1 = unseen target_images source_images ∧
  ∀ id, id ∈ scanned.2 ↔ Some id ∈ img_id <$> scanned.1.
Proof.
  unfold scan_source, unseen.
  induction source_images as [|img imgs [IH1 IH2]] using rev_ind; [set_solver|].
  rewrite foldl_snoc, filter_app, filter_cons, filter_nil. cbn zeta in *.
  destruct (decide (fingerprint img ∉ target_image_fingerprints target_images)) as [Hnew|Hold].
  - rewrite decide_True by (by rewrite <- target_image_fingerprints_spec).
    cbn [fst snd]. split; [by rewrite IH1|].
    intros id. rewrite fmap_app, elem_of_app, <- IH2. cbn.
    rewrite list_elem_of_singleton.
    destruct (img_id img) as [id'|]; [|naive_solver].
    rewrite elem_of_union, elem_of_singleton. naive_solver.
  - rewrite decide_False by (by rewrite <- target_image_fingerprints_spec).
    by rewrite app_nil_r.
Qed.

Lemma select_annotations_spec new_images (new_image_ids : gset Z) anns :
  (∀ id, id ∈ new_image_ids ↔ Some id ∈ img_id <$> new_images) →
  Forall (fun img => is_Some (img_id img)) new_images →
  select_annotations new_images new_image_ids anns = filter (annotates new_images) anns.
Proof.
  intros Hids Hall. unfold select_annotations.
  destruct (decide (new_image_ids ≠ ∅)) as [Hne|Hempty].
  - apply list_filter_iff. intros anno. unfold of_new_image, annotates.
    destruct (image_id anno); [apply Hids|done].
  - assert (new_images = []) as ->.
    { destruct new_images as [|img ?]; [done|]. exfalso. apply Hempty.
      apply Forall_cons in Hall as [[id Hid] _].
      assert (id ∈ new_image_ids); [|set_solver].
      apply Hids. rewrite fmap_cons, Hid. by left. }
    cbn. rewrite take_0. symmetry. apply filter_none.
    intros anno. unfold annotates.
    destruct (image_id anno); [by intros ?%elem_of_nil | by intros []].
Qed.
End merge.

(** ** Splitting *)

Section split.
Import SplitCoco.

Lemma count_category_app c l1 l2 :
  count_category c (l1 ++ l2) = (count_category c l1 + count_category c l2)%nat.
Proof. unfold count_category. by rewrite filter_app, length_app. Qed.

Lemma count_category_Permutation c l1 l2 :
  l1 ≡ₚ l2 → count_category c l1 = count_category c l2.
Proof. unfold count_category. by intros ->. Qed.

Lemma count_category_same c l :
  Forall (fun a => category_id a = Some c) l → count_category c l = length l.
Proof.
  unfold count_category. induction 1 as [|a l Ha _ IH]; [done|].
  rewrite filter_cons, decide_True by done. cbn. by rewrite IH.
Qed.

Lemma count_category_other c c' l :
  c' ≠ c → Forall (fun a => category_id a = Some c') l → count_category c l = 0%nat.
Proof.
  unfold count_category. intros Hc. induction 1 as [|a l Ha _ IH]; [done|].
  rewrite filter_cons, decide_False by congruence. done.
Qed.

Lemma count_category_group c (group : Z * list annotation) l :
  homogeneous group → l ⊆ group.2 →
  count_category c l = if decide (group.1 = c) then length l else 0%nat.
Proof.
  unfold homogeneous. rewrite Forall_forall. intros Hg Hl.
  assert (Forall (fun a => category_id a = Some group.1) l) as Hall.
  { apply Forall_forall. intros a Ha. apply Hg, Hl, Ha. }
  case_decide as Hc.
  - subst c. by apply count_category_same.
  - by apply (count_category_other _ group.1).
Qed.

(** A ratio between 0 and 1 cuts a list of [n] items at [floor(n * r)]. *)
Lemma split_idx_bounds (r : Q) (n : nat) :
  (0 <= r)%Q → (r <= 1)%Q →
  int (inject_Z (Z.of_nat n) * r) = Qfloor (inject_Z (Z.of_nat n) * r) ∧
  0 ≤ Qfloor (inject_Z (Z.of_nat n) * r) ≤ Z.of_nat n.
Proof.
  intros H0 H1.
  assert (0 <= inject_Z (Z.of_nat n))%Q as Hn.
  { change 0%Q with (inject_Z 0). rewrite <- Zle_Qle. lia. }
  assert (0 <= inject_Z (Z.of_nat n) * r)%Q as Hlo by (by apply Qmult_le_0_compat).
  assert (inject_Z (Z.of_nat n) * r <= inject_Z (Z.of_nat n))%Q as Hhi.
  { rewrite <- (Qmult_1_r (inject_Z (Z.of_nat n))) at 2.
    rewrite !(Qmult_comm (inject_Z (Z.of_nat n))).
    by apply Qmult_le_compat_r. }
  split.
  - unfold int. apply Qle_bool_iff in Hlo. by rewrite Hlo.
  - split.
    + change 0 with (Qfloor 0). by apply Qfloor_resp_le.
    + etrans; [by apply Qfloor_resp_le|]. by rewrite Qfloor_Z.
Qed.

Lemma slices_of_ratio {A} (l : list A) (r : Q) :
  (0 <= r)%Q → (r <= 1)%Q →
  slice_to l (int (inject_Z (Z.of_nat (length l)) * r))
    = take (train_share r (length l)) l ∧
  slice_from l (int (inject_Z (Z.of_nat (length l)) * r))
    = drop (train_share r (length l)) l ∧
  (train_share r (length l) ≤ length l)%nat.
Proof.
  intros H0 H1. destruct (split_idx_bounds r (length l) H0 H1) as [Hint [Hlo Hhi]].
  unfold slice_to, slice_from, train_share. rewrite Hint.
  rewrite !decide_False by lia. repeat split. lia.
Qed.

(** *** Grouping by category *)

Lemma od_setdefault_groups c (d : list (Z * list annotation)) :
  Forall homogeneous d →
  Forall homogeneous (od_setdefault c [] d) ∧
  concat (od_setdefault c [] d).*2 = concat d.*2.
Proof.
  intros Hd. unfold od_setdefault. destruct (od_mem c d); [done|]. split.
  - apply Forall_app. split; [done|]. by repeat constructor.
  - by rewrite fmap_app, concat_app, app_nil_r.
Qed.

Lemma od_alter_groups ann c (d : list (Z * list annotation)) :
  category_id ann = Some c → c ∈ d.*1 → Forall homogeneous d →
  Forall homogeneous (od_alter (fun l => l ++ [ann]) c d) ∧
  concat (od_alter (fun l => l ++ [ann]) c d).*2 ≡ₚ concat d.*2 ++ [ann].
Proof.
  intros Hann. induction d as [|[k l] d IH]; [by intros ?%elem_of_nil|].
  cbn [od_alter]. intros Hin [Hkl Hd]%Forall_cons.
  destruct (decide (k = c)) as [->|Hk].
  - split.
    + constructor; [|done]. apply Forall_app. split; [done|]. by repeat constructor.
    + cbn. rewrite <- !(assoc_L (++)). f_equiv. apply Permutation_app_comm.
  - cbn in Hin. apply elem_of_cons in Hin as [?|Hin]; [congruence|].
    destruct (IH Hin Hd) as [IH1 IH2]. split; [by constructor|].
    cbn. by rewrite IH2, (assoc_L (++)).
Qed.

Lemma group_by_category_from d anns :
  NoDup d.*1 → Forall homogeneous d →
  Forall (fun a => is_Some (category_id a)) anns →
  ∃ groups,
    foldM (fun d ann =>
             c ← subscript (category_id ann);
             Ok (od_alter (fun l => l ++ [ann]) c (od_setdefault c [] d))) d anns
      = Ok groups ∧
    NoDup groups.*1 ∧ Forall homogeneous groups ∧
    concat groups.*2 ≡ₚ concat d.*2 ++ anns.
Proof.
  intros Hnd Hd Hanns. revert d Hnd Hd.
  induction Hanns as [|ann anns [c Hc] _ IH]; intros d Hnd Hd.
  - exists d. by rewrite app_nil_r.
  - cbn [foldM]. rewrite Hc. cbn [subscript mbind result_bind].
    destruct (od_setdefault_groups c d Hd) as [Hd1 Hcat1].
    destruct (od_alter_groups ann c (od_setdefault c [] d) Hc) as [Hd2 Hcat2];
      [apply od_setdefault_keys; by right | done |].
    destruct (IH (od_alter (fun l => l ++ [ann]) c (od_setdefault c [] d)))
      as (groups & Hgroups & ? & ? & Hperm); [|done|].
    { rewrite od_alter_keys. by apply od_setdefault_NoDup. }
    exists groups. repeat (split; [done|]).
    by rewrite Hperm, Hcat2, Hcat1, <- (assoc_L (++)).
Qed.

Lemma group_by_category_spec anns :
  Forall (fun a => is_Some (category_id a)) anns →
  ∃ groups,
    group_by_category anns = Ok groups ∧
    NoDup groups.*1 ∧ Forall homogeneous groups ∧ concat groups.*2 ≡ₚ anns.
Proof.
  intros Hanns.
  destruct (group_by_category_from [] anns) as (groups & ? & ? & ? & ?);
    [constructor|constructor|done|].
  by exists groups.
Qed.

(** With distinct keys, at most one group contributes to a category. *)
Lemma share_sum_absent share c (groups : list (Z * list annotation)) :
  c ∉ groups.*1 → Forall homogeneous groups →
  sum_list_with (share_of share c) groups = 0%nat ∧
  count_category c (concat groups.*2) = 0%nat.
Proof.
  induction groups as [|[k l] groups IH]; [done|].
  cbn. intros Hc [Hkl Hg]%Forall_cons.
  apply not_elem_of_cons in Hc as [Hck Hc].
  destruct (IH Hc Hg) as [IH1 IH2].
  unfold share_of at 1. cbn. rewrite decide_False by done.
  rewrite count_category_app, IH1, IH2.
  by rewrite (count_category_other c k l).
Qed.

Lemma share_sum share c (groups : list (Z * list annotation)) :
  share 0%nat = 0%nat → NoDup groups.*1 → Forall homogeneous groups →
  sum_list_with (share_of share c) groups =
  share (count_category c (concat groups.*2)).
Proof.
  intros Hshare. induction groups as [|[k l] groups IH]; [done|].
  cbn. intros [Hk Hnd]%NoDup_cons [Hkl Hg]%Forall_cons.
  unfold share_of at 1. cbn. rewrite count_category_app.
  destruct (decide (k = c)) as [->|Hkc].
  - destruct (share_sum_absent share c groups Hk Hg) as [-> ->].
    rewrite (count_category_same c l) by done. by rewrite !Nat.add_0_r.
  - rewrite (count_category_other c k l) by done. by apply IH.
Qed.

(** *** The images of an output *)

Lemma image_ids_from (s : gset Z) anns :
  Forall (fun a => is_Some (image_id a)) anns →
  ∃ s',
    foldM (fun (s : gset Z) ann => i ← subscript (image_id ann); Ok (s ∪ {[i]})) s anns
      = Ok s' ∧
    ∀ i, i ∈ s' ↔ i ∈ s ∨ ∃ a, a ∈ anns ∧ image_id a = Some i.
Proof.
  intros Hanns. revert s. induction Hanns as [|ann anns [j Hj] _ IH]; intros s.
  - exists s. split; [done|]. intros i. split; [by left|].
    by intros [?|(? & ?%elem_of_nil & _)].
  - cbn [foldM]. rewrite Hj. cbn [subscript mbind result_bind].
    destruct (IH (s ∪ {[j]})) as (s' & -> & Hs'). exists s'. split; [done|].
    intros i. rewrite Hs', elem_of_union, elem_of_singleton. split.
    + intros [[?| ->]|(a & ? & ?)]; [by left| |].
      * right. exists ann. split; [left|done].
      * right. exists a. split; [by right|done].
    + intros [?|(a & [->|?]%elem_of_cons & Ha)]; [by do 2 left| |].
      * left. right. congruence.
      * right. by exists a.
Qed.

Lemma image_ids_spec anns :
  Forall (fun a => is_Some (image_id a)) anns →
  ∃ s, image_ids anns = Ok s ∧ ∀ i, i ∈ s ↔ ∃ a, a ∈ anns ∧ image_id a = Some i.
Proof.
  intros Hanns. destruct (image_ids_from ∅ anns Hanns) as (s & Hs & Hmem).
  exists s. split; [done|]. intros i. rewrite Hmem. set_solver.
Qed.

Lemma image_id_to_info_from (m : gmap Z image) imgs :
  Forall (fun img => is_Some (img_id img)) imgs →
  (∀ i img, m !! i = Some img → img_id img = Some i) →
  ∃ info,
    foldM (fun (m : gmap Z image) img => i ← subscript (img_id img); Ok (<[i := img]> m))
          m imgs = Ok info ∧
    (∀ i img, info !! i = Some img → img_id img = Some i) ∧
    (∀ i, is_Some (m !! i) ∨ Some i ∈ img_id <$> imgs → is_Some (info !! i)).
Proof.
  intros Himgs. revert m. induction Himgs as [|img imgs [j Hj] _ IH]; intros m Hm.
  - exists m. split; [done|]. split; [done|].
    by intros i [?|?%elem_of_nil].
  - cbn [foldM]. rewrite Hj. cbn [subscript mbind result_bind].
    destruct (IH (<[j := img]> m)) as (info & -> & Hinfo & Hdom).
    { intros i img' [[-> ->]|[_ ?]]%lookup_insert_Some; eauto. }
    exists info. split; [done|]. split; [done|].
    intros i Hi. apply Hdom. rewrite lookup_insert_is_Some.
    rewrite fmap_cons, elem_of_cons, Hj in Hi.
    destruct (decide (j = i)) as [->|]; [by do 2 left|].
    destruct Hi as [?|[[= ->]|?]]; [left; by right|done|by right].
Qed.

Lemma image_id_to_path_from dir (m : gmap Z string) imgs :
  Forall (fun img => is_Some (img_id img) ∧ is_Some (file_name img)) imgs →
  ∃ paths,
    foldM (fun (m : gmap Z string) img =>
             i ← subscript (img_id img);
             fn ← subscript (file_name img);
             Ok (<[i := dir +:+ fn]> m)) m imgs = Ok paths ∧
    (∀ i, is_Some (m !! i) ∨ Some i ∈ img_id <$> imgs → is_Some (paths !! i)).
Proof.
  intros Himgs. revert m. induction Himgs as [|img imgs [[j Hj] [fn Hfn]] _ IH]; intros m.
  - exists m. split; [done|]. by intros i [?|?%elem_of_nil].
  - cbn [foldM]. rewrite Hj, Hfn. cbn [subscript mbind result_bind].
    destruct (IH (<[j := dir +:+ fn]> m)) as (paths & -> & Hdom).
    exists paths. split; [done|].
    intros i Hi. apply Hdom. rewrite lookup_insert_is_Some.
    rewrite fmap_cons, elem_of_cons, Hj in Hi.
    destruct (decide (j = i)) as [->|]; [by do 2 left|].
    destruct Hi as [?|[[= ->]|?]]; [left; by right|done|by right].
Qed.

Lemma collect_images_from (info : gmap Z image) (paths : gmap Z string) ids acc :
  Forall (fun i => is_Some (info !! i) ∧ is_Some (paths !! i)) ids →
  ∃ imgs copies,
    foldM (fun (acc : list image * list string) img_id =>
             img ← subscript (info !! img_id);
             path ← subscript (paths !! img_id);
             Ok (acc.1 ++ [img], acc.2 ++ [path])) acc ids
      = Ok (acc.1 ++ imgs, acc.2 ++ copies) ∧
    Forall2 (fun i img => info !! i = Some img) ids imgs.
Proof.
  intros Hids. revert acc.
  induction Hids as [|i ids [[img Himg] [path Hpath]] _ IH]; intros acc.
  - exists [], []. rewrite !app_nil_r. by destruct acc.
  - cbn [foldM]. rewrite Himg, Hpath. cbn [subscript mbind result_bind].
    destruct (IH (acc.1 ++ [img], acc.2 ++ [path])) as (imgs & copies & -> & Hall).
    exists (img :: imgs), (path :: copies). cbn [fst snd].
    rewrite <- !(assoc_L (++)). split; [done|]. by constructor.
Qed.

Lemma not_listed (ids : list Z) (imgs : list image) i :
  Forall2 (fun j img => img_id img = Some j) ids imgs → i ∉ ids →
  filter (fun img => img_id img = Some i) imgs = [].
Proof.
  induction 1 as [|j img ids imgs Hj Hall IH]; [done|].
  intros [Hne Hn]%not_elem_of_cons.
  rewrite filter_cons, decide_False by congruence. by apply IH.
Qed.

Lemma listed_once (ids : list Z) (imgs : list image) i :
  NoDup ids → Forall2 (fun j img => img_id img = Some j) ids imgs → i ∈ ids →
  length (filter (fun img => img_id img = Some i) imgs) = 1%nat.
Proof.
  intros Hnd Hall. revert Hnd.
  induction Hall as [|j img ids imgs Hj Hall IH]; [by intros _ ?%elem_of_nil|].
  intros [Hjn Hnd]%NoDup_cons Hi. rewrite filter_cons.
  destruct (decide (j = i)) as [->|Hji].
  - rewrite decide_True by done. cbn. f_equal.
    by rewrite (not_listed ids imgs i).
  - rewrite decide_False by congruence.
    apply elem_of_cons in Hi as [?|Hi]; [congruence|]. by apply IH.
Qed.
End split.

Section split_images.
Import SplitCoco.

(** The image list of one output: every image referenced by one of its
    annotations is listed once. *)
Lemma part_images (info : gmap Z image) (paths : gmap Z string)
    (all_images : list image) (anns : list annotation) :
  (∀ i img, info !! i = Some img → img_id img = Some i) →
  (∀ i, Some i ∈ img_id <$> all_images → is_Some (info !! i) ∧ is_Some (paths !! i)) →
  Forall (fun a => ∃ i, image_id a = Some i ∧ Some i ∈ img_id <$> all_images) anns →
  ∃ ids collected,
    image_ids anns = Ok ids ∧
    collect_images info paths ids = Ok collected ∧
    ∀ a i, a ∈ anns → image_id a = Some i →
           length (filter (fun img => img_id img = Some i) collected.1) = 1%nat.
Proof.
  intros Hinfo Hdom Hanns.
  destruct (image_ids_spec anns) as (ids & Hids & Hmem).
  { eapply Forall_impl; [done|]. intros a (i & -> & _). by eexists. }
  destruct (collect_images_from info paths (elements ids) ([], []))
    as (imgs & copies & Hcollect & Hall).
  { apply Forall_forall. intros i Hi%elem_of_elements.
    apply Hmem in Hi as (a & Ha & Hai). apply Hdom.
    rewrite Forall_forall in Hanns.
    destruct (Hanns a Ha) as (j & Hj & Hin). congruence. }
  exists ids, (imgs, copies). split; [done|]. split; [done|].
  intros a i Ha Hai. cbn [fst].
  apply (listed_once (elements ids)).
  - apply NoDup_elements.
  - eapply Forall2_impl; [done|]. intros j img Hj. by apply Hinfo in Hj.
  - apply elem_of_elements, Hmem. by exists a.
Qed.
End split_images.

Section split_random.
Import SplitCoco.
Context {rng : Type} (shuffle : rng -> list annotation -> list annotation * rng).
Hypothesis shuffle_permutes : ∀ g l, (shuffle g l).1 ≡ₚ l.

Lemma split_categories_snoc r g groups group :
  split_categories shuffle r g (groups ++ [group]) =
  let '(train, val, g1) := split_categories shuffle r g groups in
  let '(anns, g2) := shuffle g1 group.2 in
  let split_idx := int (inject_Z (Z.of_nat (length anns)) * r) in
  (train ++ slice_to anns split_idx, val ++ slice_from anns split_idx, g2).
Proof. unfold split_categories. by rewrite foldl_snoc. Qed.

Lemma split_categories_spec r g groups :
  (0 <= r)%Q → (r <= 1)%Q → Forall homogeneous groups →
  ∃ train val g',
    split_categories shuffle r g groups = (train, val, g') ∧
    train ++ val ≡ₚ concat groups.*2 ∧
    ∀ c, count_category c train = sum_list_with (share_of (train_share r) c) groups ∧
         count_category c val = sum_list_with (share_of (val_share r) c) groups.
Proof.
  intros H0 H1. induction groups as [|group groups IH] using rev_ind.
  - intros _. by exists [], [], g.
  - intros [Hgroups Hgroup]%Forall_app. apply Forall_inv in Hgroup.
    destruct (IH Hgroups) as (train & val & g1 & Hsplit & Hperm & Hcount).
    rewrite split_categories_snoc, Hsplit.
    pose proof (shuffle_permutes g1 group.2) as Hsh.
    destruct (shuffle g1 group.2) as [anns g2]. cbn [fst] in Hsh.
    cbn beta iota zeta.
    destruct (slices_of_ratio anns r H0 H1) as (-> & -> & Hk).
    assert (length anns = length group.2) as Hlen by (by rewrite Hsh).
    assert (homogeneous (group.1, anns)) as Hanns.
    { unfold homogeneous in *. cbn [fst snd]. by rewrite Hsh. }
    eexists _, _, _. split; [reflexivity|]. split.
    + rewrite fmap_app, concat_app. cbn. rewrite app_nil_r.
      trans ((train ++ val) ++
             (take (train_share r (length anns)) anns ++
              drop (train_share r (length anns)) anns)).
      * rewrite <- !(assoc_L (++)). f_equiv. rewrite !(assoc_L (++)). f_equiv.
        apply Permutation_app_comm.
      * by rewrite take_drop, Hperm, Hsh.
    + intros c. destruct (Hcount c) as [Ht Hv].
      rewrite !count_category_app, !sum_list_with_app, Ht, Hv. cbn.
      rewrite !Nat.add_0_r.
      rewrite (count_category_group c (group.1, anns) (take _ anns)) by
        (done || apply subseteq_take).
      rewrite (count_category_group c (group.1, anns) (drop _ anns)) by
        (done || apply subseteq_drop).
      unfold share_of, val_share. cbn [fst snd].
      rewrite length_take, length_drop, Hlen. rewrite Hlen in Hk.
      split; case_decide; lia.
Qed.
End split_random.

(** * The claims of the specification *)

Import Samples.

(** C5.  Polygon normalization divides every x coordinate by the image width
    and every y coordinate by the image height, in place and without
    clamping; multiplying the result back by the image dimensions gives the
    original coordinates (as rationals), for every flat coordinate sequence
    of even length and positive width and height. *)
Theorem normalize_round_trip (p : list Q) (w h : Z) :
  Nat.Even (length p) → 0 < w → 0 < h →
  ∃ out,
    normalize (PNum <$> p) w h = Ok out ∧
    length out = length p ∧
    (∀ i x, p !! i = Some x →
            out !! i = Some (x / inject_Z (if Nat.even i then w else h))%Q) ∧
    Forall2 Qeq (pixel_space out w h) p.
Proof.
  intros Heven Hw Hh. exists (unit_space p w h).
  rewrite normalize_numbers by lia.
  apply Nat.even_spec in Heven. rewrite Heven.
  split; [done|]. split; [apply length_imap|]. split.
  - intros i x Hi. unfold unit_space. rewrite list_lookup_imap, Hi. done.
  - apply pixel_unit_space; lia.
Qed.

(** Two points on a 100x200 image. *)
Lemma normalize_round_trip_witness :
  ∃ out,
    normalize (PNum <$> [10; 20; 30; 40]%Q) 100 200 = Ok out ∧
    length out = 4%nat ∧
    (∀ i x, [10; 20; 30; 40]%Q !! i = Some x →
            out !! i = Some (x / inject_Z (if Nat.even i then 100 else 200))%Q) ∧
    Forall2 Qeq (pixel_space out 100 200) [10; 20; 30; 40]%Q.
Proof.
  apply (normalize_round_trip [10; 20; 30; 40]%Q 100 200).
  - by exists 2%nat.
  - lia.
  - lia.
Defined.

(** C9.  The normalization loop reads positions [i] and [i+1] for every even
    [i] below the length of the coordinate list, with no parity check:
    all reads are in bounds exactly when the length is even, and an
    odd-length polygon annotation that reaches the loop ends the run with
    an [IndexError] instead of being logged and skipped. *)
Theorem odd_polygon_out_of_range `{Lib} (p : list Q) info cm st ann id iid cid inf idx :
  ann_id ann = Some id → image_id ann = Some iid → category_id ann = Some cid →
  segmentation ann = Some (SegList (PNum <$> p)) →
  info !! iid = Some inf → cm !! cid = Some idx →
  info_width inf ≠ 0 → info_height inf ≠ 0 →
  (Forall (fun i => (i < length p ∧ i + 1 < length p)%nat) (range2 (length p)) ↔
     Nat.Even (length p)) ∧
  (Nat.Even (length p) ↔
     is_ok (normalize (PNum <$> p) (info_width inf) (info_height inf)) = true) ∧
  (Nat.Odd (length p) →
     normalize (PNum <$> p) (info_width inf) (info_height inf) = Raise IndexError ∧
     ∀ rest, foldM (process_annotation info cm) st (ann :: rest) = Raise IndexError).
Proof.
  intros Hid Hiid Hcid Hseg Hinf Hidx Hw Hh.
  split; [apply range2_in_bounds|].
  rewrite normalize_numbers by done. split.
  - rewrite <- Nat.even_spec. by destruct (Nat.even (length p)).
  - intros Hodd.
    assert (Nat.even (length p) = false) as Hev.
    { apply Nat.odd_spec in Hodd. rewrite <- Nat.negb_odd. by rewrite Hodd. }
    rewrite Hev. split; [done|]. intros rest. apply foldM_raise.
    rewrite (process_polygon _ _ _ _ _ _ _ _ _ _ Hid Hiid Hcid Hseg Hinf Hidx).
    destruct p as [|x p]; [done|].
    rewrite fmap_cons, poly_points_flat. cbn [mbind result_bind].
    by rewrite <- fmap_cons, normalize_numbers, Hev.
Qed.

(** A three-coordinate polygon on a 4x2 image. *)
Lemma odd_polygon_out_of_range_witness :
  normalize (PNum <$> [1; 2; 3]%Q) 4 2 = Raise IndexError ∧
  foldM (process_annotation (H:=toy_lib) {[ 1 := ImgInfo "a.jpg" 4 2 ]} {[ 7 := 0%nat ]})
        (State [] [] [])
        [ann 1 1 7 (SegList (PNum <$> [1; 2; 3]%Q)); ann 2 1 7 square]
    = Raise IndexError.
Proof.
  destruct (odd_polygon_out_of_range (H:=toy_lib) [1; 2; 3]%Q
              {[ 1 := ImgInfo "a.jpg" 4 2 ]} {[ 7 := 0%nat ]} (State [] [] [])
              (ann 1 1 7 (SegList (PNum <$> [1; 2; 3]%Q)))
              1 1 7 (ImgInfo "a.jpg" 4 2) 0%nat)
    as (_ & _ & Hodd); try reflexivity; try discriminate.
  destruct Hodd as [Hnorm Hrun]; [by exists 1%nat|].
  split; [exact Hnorm | exact (Hrun [ann 2 1 7 square])].
Defined.



(** C1.  What the converter does with an annotation whose mask has no
    foreground: [rle_to_yolo_polygon] hands back the bare empty list of
    line 36, the two-target assignment of line 149 cannot unpack it, and the
    run ends with a [ValueError]; the annotation is not skipped, no warning
    is printed and no later annotation is processed. *)
Theorem empty_mask_aborts_run `{Lib} data info pre st ann rest id iid cid rle inf idx mask :
  build_image_info (images data) = Ok info →
  annotations data = pre ++ ann :: rest →
  foldM (process_annotation info (build_category_mapping data).1)
        (State [] [] (build_category_mapping data).2) pre = Ok st →
  ann_id ann = Some id → image_id ann = Some iid → category_id ann = Some cid →
  segmentation ann = Some (SegRLE rle) →
  info !! iid = Some inf → (build_category_mapping data).1 !! cid = Some idx →
  decode rle = Ok mask → findContours mask = [] →
  process_annotation info (build_category_mapping data).1 st ann = Raise ValueError ∧
  convert_json_to_yolo_labels data = Raise ValueError.
Proof.
  intros Hinfo Hanns Hpre Hid Hiid Hcid Hseg Hinf Hidx Hdec Hcont.
  assert (process_annotation info (build_category_mapping data).1 st ann = Raise ValueError)
    as Hann.
  { rewrite (process_rle _ _ _ _ _ _ _ _ _ _ Hid Hiid Hcid Hseg Hinf Hidx).
    by rewrite (rle_no_contours _ _ _ _ _ _ Hdec Hcont). }
  split; [done|].
  unfold convert_json_to_yolo_labels. rewrite Hinfo, Hanns. cbn [mbind result_bind].
  rewrite foldM_app, Hpre. cbn [mbind result_bind].
  by rewrite (foldM_raise _ _ _ _ _ Hann).
Qed.

(** A 2x2 mask whose single run of four pixels is background. *)
Lemma empty_mask_aborts_run_witness :
  process_annotation (H:=toy_lib) {[ 1 := ImgInfo "a.jpg" 4 2 ]}
    (build_category_mapping empty_mask_dataset).1
    (State [] [] []) (ann 1 1 7 (SegRLE (Rle [4] [2; 2]))) = Raise ValueError ∧
  convert_json_to_yolo_labels (H:=toy_lib) empty_mask_dataset = Raise ValueError.
Proof.
  apply (empty_mask_aborts_run (H:=toy_lib) empty_mask_dataset
           {[ 1 := ImgInfo "a.jpg" 4 2 ]} [] (State [] [] [])
           (ann 1 1 7 (SegRLE (Rle [4] [2; 2]))) [ann 2 1 7 square]
           1 1 7 (Rle [4] [2; 2]) (ImgInfo "a.jpg" 4 2) 0%nat
           [[false; false]; [false; false]]);
    reflexivity.
Defined.

(** C2, as stated, fails on a dataset whose only annotation is dispatched
    and then skipped for its unknown segmentation shape: image 1 has no
    accepted annotation and still has a label set, an empty one. *)
Lemma skipped_image_has_label_set :
  ¬ no_label_set_without_accepted (H:=toy_lib) unknown_format_dataset.
Proof.
  intros Hclaim.
  refine (Hclaim (Output [("a.txt", [])] [(1, [])]
                    (Dataset one_image one_category [] []) [WarnUnknownFormat 1])
                 1 _ _ _).
  - reflexivity.
  - reflexivity.
  - apply list_elem_of_singleton. reflexivity.
Qed.

(** C2, amended.  When the conversion completes, an image has a label set,
    and with it a label file, exactly when some annotation that carries the
    four required fields refers to it and the image is listed; the label set
    holds one label per accepted annotation of the image, so it is empty when
    all of them were skipped after line 140; and one file is written per
    label set, with that set's lines. *)
Theorem label_set_iff_dispatched `{Lib} data out :
  convert_json_to_yolo_labels data = Ok out →
  (∀ i, i ∈ (labels out).*1 ↔
        ∃ ann, ann ∈ annotations data ∧
               is_Some (ann_id ann) ∧ is_Some (category_id ann) ∧
               is_Some (segmentation ann) ∧ image_id ann = Some i ∧
               ∃ img, img ∈ images data ∧ img_id img = Some i) ∧
  (∀ i ls, (i, ls) ∈ labels out →
           length ls = count_image i (annotations (GenerateLabels.data out))) ∧
  (label_files out).*2 = (labels out).*2.
Proof.
  intros (info & st & Hinfo & Hst & Hfiles & -> & -> & _)%convert_Ok_inv.
  split; [|split].
  - intros i. rewrite (process_all_keys _ _ _ _ _ _ Hst). cbn.
    split.
    + intros [?%elem_of_nil|(a & Ha & (? & ? & ? & j & Hj & Hinf) & Hi)]; [done|].
      exists a. repeat (split; [done|]).
      apply (build_image_info_lookup _ _ _ Hinfo). congruence.
    + intros (a & Ha & ? & ? & ? & Hi & Himg). right. exists a.
      split; [done|]. split; [|done]. repeat (split; [done|]).
      exists i. split; [done|].
      by apply (build_image_info_lookup _ _ _ Hinfo).
  - intros i ls Hin. cbn.
    destruct (process_all_consistent _ _ _ _ _ Hst) as [Hnd Hlen].
    { split; [constructor|]. intros j. reflexivity. }
    specialize (Hlen i). by rewrite (od_get_elem_of _ _ _ Hnd Hin) in Hlen.
  - by apply write_labels_snd in Hfiles.
Qed.

(** The dataset of the counterexample: image 1 has a label set, because its
    annotation was dispatched, and the set is empty. *)
Lemma label_set_iff_dispatched_witness :
  let out := Output [("a.txt", [])] [(1, [])]
               (Dataset one_image one_category [] []) [WarnUnknownFormat 1] in
  (∀ i, i ∈ (labels out).*1 ↔
        ∃ ann, ann ∈ annotations unknown_format_dataset ∧
               is_Some (ann_id ann) ∧ is_Some (category_id ann) ∧
               is_Some (segmentation ann) ∧ image_id ann = Some i ∧
               ∃ img, img ∈ images unknown_format_dataset ∧ img_id img = Some i) ∧
  (∀ i ls, (i, ls) ∈ labels out →
           length ls = count_image i (annotations (GenerateLabels.data out))) ∧
  (label_files out).*2 = (labels out).*2.
Proof.
  apply (label_set_iff_dispatched (H:=toy_lib) unknown_format_dataset). reflexivity.
Defined.

(** C3.  Conditions on a single annotation record that end the run: a
    category identifier that is not in the declared category list raises
    [KeyError] at line 143, and an empty segmentation list raises
    [IndexError] at line 170; in both cases the well-formed annotation that
    follows is never processed and nothing is written. *)
Theorem record_condition_aborts_run `{Lib} :
  convert_json_to_yolo_labels unknown_category_dataset = Raise KeyError ∧
  convert_json_to_yolo_labels empty_polygon_dataset = Raise IndexError.
Proof. split; reflexivity. Qed.





(** C10.  The merge only appends to the target: the merged image list is the
    target's followed by images taken from the source, the merged annotation
    list is the target's followed by annotations taken from the source (both
    in source order), and the other top-level entries of the target are left
    as they were. *)
Theorem merge_appends_to_target (source target : dataset) :
  let merged := (MergeCoco.merge_annotation_files source target).1 in
  ∃ new_images new_annotations,
    images merged = images target ++ new_images ∧
    new_images `sublist_of` images source ∧
    annotations merged = annotations target ++ new_annotations ∧
    new_annotations `sublist_of` annotations source ∧
    categories merged = categories target ∧
    ds_rest merged = ds_rest target.
Proof.
  cbn zeta. unfold MergeCoco.merge_annotation_files.
  cbn [fst images annotations categories ds_rest].
  destruct (scan_source_spec (images target) (images source)) as [Hnew _].
  cbn zeta in Hnew.
  set (scanned := MergeCoco.scan_source _ _) in *.
  exists scanned.1,
    (MergeCoco.select_annotations scanned.1 scanned.2 (annotations source)).
  split; [reflexivity|]. split; [|split; [reflexivity|]; split; [|done]].
  - rewrite Hnew. apply sublist_filter.
  - unfold MergeCoco.select_annotations. case_decide.
    + apply sublist_filter.
    + apply sublist_take.
Qed.



(** * Further properties *)

Import Spec2.

(** ** Extracting names from a document *)

Section extract.
Import MakeImageList.

Lemma json_nested_ind (P : json -> Prop) :
  P JNull → (∀ b, P (JBool b)) → (∀ q, P (JNum q)) → (∀ s, P (JStr s)) →
  (∀ items, Forall P items → P (JArr items)) →
  (∀ entries, Forall (fun kv => P kv.2) entries → P (JObj entries)) →
  ∀ j, P j.
Proof.
  intros HNull HBool HNum HStr HArr HObj. fix IH 1.
  intros [ | b | q | s | items | entries]; [done..| |].
  - apply HArr. induction items as [|item items IHitems]; constructor; [apply IH | done].
  - apply HObj. induction entries as [|[k v] entries IHentries]; constructor; [apply IH | done].
Qed.

Lemma extract_array_cons item items key :
  extract_image_names (JArr (item :: items)) key =
  extract_image_names item key ++ extract_image_names (JArr items) key.
Proof.
  destruct item as [ | | | | | entries]; try done.
  cbn. by destruct (get key entries).
Qed.

Lemma extract_array items key :
  extract_image_names (JArr items) key =
  mjoin ((fun item => extract_image_names item key) <$> items).
Proof.
  induction items as [|item items IH]; [done|].
  by rewrite extract_array_cons, IH.
Qed.

Lemma extract_object_cons k value entries key :
  k ≠ key →
  get key entries = None →
  extract_image_names (JObj ((k, value) :: entries)) key =
  extract_image_names value key ++ extract_image_names (JObj entries) key.
Proof.
  intros Hk Hget. cbn. rewrite decide_False, Hget by done. by destruct value.
Qed.

Lemma get_cons_None key k value entries :
  get key ((k, value) :: entries) = None ↔ k ≠ key ∧ get key entries = None.
Proof. cbn. case_decide; naive_solver. Qed.

Lemma extract_object entries key :
  get key entries = None →
  extract_image_names (JObj entries) key =
  mjoin ((fun kv : string * json => extract_image_names kv.2 key) <$> entries).
Proof.
  induction entries as [|[k value] entries IH]; [done|].
  intros [Hk Hget]%get_cons_None.
  by rewrite extract_object_cons, IH.
Qed.

Lemma extract_object_key entries key name :
  get key entries = Some name → extract_image_names (JObj entries) key = [name].
Proof. intros Hget. cbn. by rewrite Hget. Qed.
End extract.

Section extract_membership.
Import MakeImageList.

Lemma outermost_stored key name j : outermost key name j → stored key name j.
Proof.
  induction 1 as [entries Hget | items item Hin _ IH | entries k value _ Hin _ IH].
  - by apply stored_here.
  - by apply (stored_in_item _ _ items item).
  - by apply (stored_in_value _ _ entries k value).
Qed.

Lemma extract_outermost_iff key name j :
  name ∈ extract_image_names j key ↔ outermost key name j.
Proof.
  induction j as [ | b | q | s | items IH | entries IH] using json_nested_ind;
    try (split; [by intros ?%elem_of_nil | by inversion 1]).
  - rewrite extract_array, list_elem_of_join. rewrite Forall_forall in IH. split.
    + intros (l & Hname & (item & -> & Hitem)%list_elem_of_fmap).
      apply (outermost_in_item _ _ items item); [done|]. by apply IH.
    + inversion 1 as [ | items' item Hitem Hout | ]; subst.
      exists (extract_image_names item key). split; [by apply IH|].
      apply list_elem_of_fmap. by exists item.
  - destruct (get key entries) as [name'|] eqn:Hget.
    + rewrite (extract_object_key _ _ _ Hget), list_elem_of_singleton. split.
      * intros ->. by apply outermost_here.
      * inversion 1; congruence.
    + rewrite (extract_object _ _ Hget), list_elem_of_join.
      rewrite Forall_forall in IH. split.
      * intros (l & Hname & ([k value] & -> & Hkv)%list_elem_of_fmap).
        apply (outermost_in_value _ _ entries k value); [done..|].
        by apply (IH (k, value)).
      * inversion 1 as [ | | entries' k value _ Hkv Hout]; subst; [congruence|].
        exists (extract_image_names value key). split; [by apply (IH (k, value))|].
        apply list_elem_of_fmap. by exists (k, value).
Qed.

Lemma extract_records records key :
  Forall (fun entries => is_Some (get key entries)) records →
  extract_image_names (JArr (JObj <$> records)) key = omap (get key) records.
Proof.
  induction 1 as [|entries records [name Hname] _ IH]; [done|].
  rewrite fmap_cons, extract_array_cons, IH, (extract_object_key _ _ _ Hname).
  cbn. by rewrite Hname.
Qed.

Lemma extract_not_stored key j :
  (∀ name, ¬ stored key name j) → extract_image_names j key = [].
Proof.
  intros Hno. destruct (extract_image_names j key) as [|name names] eqn:Hex; [done|].
  exfalso. apply (Hno name), outermost_stored, extract_outermost_iff.
  rewrite Hex. by left.
Qed.
End extract_membership.

(** ** Writing the manifest *)

Section manifest.
Import MakeImageList.
Context (join : string -> string -> string -> string -> string).

Lemma write_names_strings output_dir output_tag (names : list string) :
  write_names join output_dir output_tag (JStr <$> names) =
  (join output_dir "images" output_tag <$> names, true).
Proof.
  induction names as [|name names IH]; [done|].
  rewrite fmap_cons. cbn [write_names]. by rewrite IH.
Qed.

Lemma write_names_finished output_dir output_tag (names : list json) lines :
  write_names join output_dir output_tag names = (lines, true) →
  ∃ strings, names = JStr <$> strings.
Proof.
  revert lines. induction names as [|name names IH]; intros lines.
  - by exists [].
  - destruct name as [ | | | s | | ]; cbn [write_names]; try done.
    destruct (write_names join output_dir output_tag names) as [lines' finished].
    intros [= <- ->]. destruct (IH lines' eq_refl) as [strings ->].
    by exists (s :: strings).
Qed.
End manifest.

(** ** Boxes *)

Lemma inject_Z_pos z : 0 < z → (0 < inject_Z z)%Q.
Proof. intros Hz. change 0%Q with (inject_Z 0). by rewrite <- Zlt_Qlt. Qed.

Lemma Qdiv_le_1 x d : (0 < d)%Q → (x / d <= 1)%Q ↔ (x <= d)%Q.
Proof.
  intros Hd. split; intros Hle.
  - apply (Qmult_le_r _ _ (/ d)); [by apply Qinv_lt_0_compat|].
    rewrite Qmult_inv_r; [done|]. intros Heq. rewrite Heq in Hd. by apply Qlt_irrefl in Hd.
  - apply Qle_shift_div_r; [done|]. by rewrite Qmult_1_l.
Qed.

Lemma Qdiv_nonneg x d : (0 < d)%Q → (0 <= x / d)%Q ↔ (0 <= x)%Q.
Proof.
  intros Hd. split; intros Hle.
  - apply (Qmult_le_r _ _ (/ d)); [by apply Qinv_lt_0_compat|].
    by rewrite Qmult_0_l.
  - apply Qle_shift_div_l; [done|]. by rewrite Qmult_0_l.
Qed.

Lemma normalize_bb_ok x_min y_min width height img_h img_w :
  img_w ≠ 0 → img_h ≠ 0 →
  normalize_bb [x_min; y_min; width; height] img_h img_w =
  Ok [((x_min + (x_min + width)) / 2 / inject_Z img_w)%Q;
      ((y_min + (y_min + height)) / 2 / inject_Z img_h)%Q;
      (width / inject_Z img_w)%Q;
      (height / inject_Z img_h)%Q].
Proof.
  intros Hw Hh. unfold normalize_bb, true_div. cbn.
  by rewrite !decide_False by done.
Qed.

(** ** The mask path *)

Section mask_path.
Context `{Lib}.

Lemma Qltb_true a b : Qltb a b = true ↔ (a < b)%Q.
Proof.
  unfold Qltb. rewrite negb_true_iff, <- not_true_iff_false, Qle_bool_iff.
  split; [apply Qnot_le_lt | apply Qlt_not_le].
Qed.

Lemma Qltb_false a b : Qltb a b = false ↔ (b <= a)%Q.
Proof. unfold Qltb. by rewrite negb_false_iff, Qle_bool_iff. Qed.

Lemma first_largest_snoc_keep contours k c c' :
  first_largest contours k c → (contourArea c' <= contourArea c)%Q →
  first_largest (contours ++ [c']) k c.
Proof.
  intros (Hk & Hmax & Hfirst) Hc'. split; [|split].
  - by apply lookup_app_l_Some.
  - intros j x Hj. apply lookup_snoc_Some in Hj as [[_ Hj]|[_ <-]]; eauto.
  - intros j x Hjk Hj. apply lookup_snoc_Some in Hj as [[_ Hj]|[Hlen <-]]; [eauto|].
    apply lookup_lt_Some in Hk. lia.
Qed.

Lemma first_largest_snoc_replace contours k c c' :
  first_largest contours k c → (contourArea c < contourArea c')%Q →
  first_largest (contours ++ [c']) (length contours) c'.
Proof.
  intros (Hk & Hmax & Hfirst) Hc'. split; [|split].
  - by rewrite lookup_app_r, Nat.sub_diag.
  - intros j x Hj. apply lookup_snoc_Some in Hj as [[_ Hj]|[_ <-]]; [|apply Qle_refl].
    apply Qlt_le_weak. eapply Qle_lt_trans; [by eapply Hmax|done].
  - intros j x Hjk Hj. rewrite lookup_app_l in Hj by done.
    eapply Qle_lt_trans; [by eapply Hmax|done].
Qed.

Lemma max_loop_first_largest rest pre k c :
  first_largest pre k c →
  ∃ k' c',
    max_loop Qltb (fun c => Ok (contourArea c)) c (contourArea c) rest = Ok c' ∧
    first_largest (pre ++ rest) k' c'.
Proof.
  revert pre k c. induction rest as [|x rest IH]; intros pre k c Hc.
  - exists k, c. by rewrite app_nil_r.
  - cbn [max_loop mbind result_bind].
    rewrite (cons_middle x pre rest), (assoc_L (++)).
    destruct (Qltb (contourArea c) (contourArea x)) eqn:Hlt.
    + apply Qltb_true in Hlt. eapply IH, first_largest_snoc_replace; eauto.
    + apply Qltb_false in Hlt. eapply IH, first_largest_snoc_keep; eauto.
Qed.

Lemma max_key_first_largest c0 rest :
  ∃ k c,
    max_key Qltb (fun c => Ok (contourArea c)) (c0 :: rest) = Ok c ∧
    first_largest (c0 :: rest) k c.
Proof.
  cbn [max_key mbind result_bind].
  apply (max_loop_first_largest rest [c0] 0%nat c0).
  split; [done|]. split.
  - intros [|j] c' [= <-]. apply Qle_refl.
  - intros; lia.
Qed.

Lemma flatten_length (c : contour) : length (flatten c) = (2 * length c)%nat.
Proof.
  unfold flatten. induction c as [|xy c IH]; [done|].
  cbn. cbn in IH. rewrite IH. lia.
Qed.
End mask_path.

(** ** The annotation loop, in more detail *)

Section loop_cases.
Context `{Lib}.

Lemma normalize_pairs_length p w h out :
  normalize_pairs p w h = Ok out → length out = length p ∧ Nat.Even (length out).
Proof.
  revert out. induction p as [| x | x y p IH] using pair_ind; intros out.
  - intros [= <-]. split; [done|]. by exists 0%nat.
  - cbn. by destruct (div x w).
  - cbn [normalize_pairs].
    destruct (div x w) as [x'|]; cbn [mbind result_bind]; [|done].
    destruct (div y h) as [y'|]; cbn [mbind result_bind]; [|done].
    destruct (normalize_pairs p w h) as [out'|]; cbn [mbind result_bind]; [|done].
    intros [= <-]. destruct (IH out' eq_refl) as [Hlen [k Hk]].
    split; [cbn; by rewrite Hlen|]. exists (S k). cbn. lia.
Qed.

Lemma normalize_even p w h out :
  normalize p w h = Ok out → Nat.Even (length out).
Proof. rewrite normalize_unfold. by intros [_ ?]%normalize_pairs_length. Qed.

Lemma rle_pair_even rle h w simplify epsilon normalized flattened :
  rle_to_yolo_polygon rle h w simplify epsilon = Ok (RetPair normalized flattened) →
  Nat.Even (length normalized).
Proof.
  unfold rle_to_yolo_polygon.
  destruct (decode _) as [mask|]; cbn [mbind result_bind]; [|done].
  destruct (findContours mask) as [|c cs]; [done|].
  destruct (max_key Qltb (fun c => Ok (contourArea c)) (c :: cs)) as [largest|];
    cbn [mbind result_bind]; [|done].
  destruct (normalize _ w h) as [out|] eqn:Hout; cbn [mbind result_bind]; [|done].
  intros [= <- _]. by apply normalize_even in Hout.
Qed.

(** The three ways one turn of the loop can end without an exception. *)
Lemma process_annotation_cases info cm st ann st' :
  process_annotation info cm st ann = Ok st' →
  (∃ m, ¬ well_formed info ann ∧ st' = print m st) ∨
  (∃ iid m, image_id ann = Some iid ∧ well_formed info ann ∧
            st' = print m (dispatched iid st)) ∨
  (∃ iid cid idx yolo a,
     image_id ann = Some iid ∧ category_id ann = Some cid ∧ cm !! cid = Some idx ∧
     Nat.Even (length yolo) ∧ rewritten ann a ∧ polygon_form a ∧
     well_formed info ann ∧
     st' = accept iid (idx, yolo) a (dispatched iid st)).
Proof.
  unfold process_annotation, well_formed.
  destruct (ann_id ann) as [id|] eqn:Hid;
    destruct (image_id ann) as [iid|] eqn:Hiid;
    destruct (category_id ann) as [cid|] eqn:Hcid;
    destruct (segmentation ann) as [sg|] eqn:Hseg;
    try (intros Hst; left;
         assert (∃ m, st' = print m st) as [m ->]
           by (revert Hst; repeat case_decide; intros [= <-]; eauto);
         exists m; split; [|done];
         intros (Ha & Hb & Hc & j & Hj & _);
         first [ discriminate
               | by destruct Ha as [? [=]]
               | by destruct Hb as [? [=]]
               | by destruct Hc as [? [=]] ]).
  destruct (info !! iid) as [inf|] eqn:Hinf.
  2:{ intros [= <-]. left. eexists. split; [|done].
      intros (_ & _ & _ & j & [= <-] & [? Hj]). congruence. }
  assert (is_Some (Some id) ∧ is_Some (Some cid) ∧ is_Some (Some sg) ∧
          ∃ i, Some iid = Some i ∧ is_Some (info !! i)) as Hwf.
  { repeat split; eauto. }
  intros Hst. right. revert Hst.
  destruct (cm !! cid) as [idx|] eqn:Hidx; cbn [subscript mbind result_bind]; [|done].
  destruct sg as [rle|poly_list|].
  - destruct (rle_to_yolo_polygon _ _ _ _ _) as [[|n f]|] eqn:Hrle;
      cbn [unpack2 mbind result_bind]; try done.
    destruct n as [|q n']; intros [= <-].
    + left. by exists iid, (WarnNoContours id).
    + right. exists iid, cid, idx, (q :: n'),
        (Annotation (Some id) (Some iid) (Some cid)
                    (Some (SegList [PList (inject_Z <$> f)])) (ann_rest ann)).
      split; [done|]. split; [done|]. split; [done|].
      split; [by apply rle_pair_even in Hrle|].
      split; [right; exists rle, (inject_Z <$> f); by rewrite Hid, Hiid, Hcid|].
      split; [by eexists|]. split; [done|]. reflexivity.
  - destruct (poly_points poly_list) as [pts|]; cbn [mbind result_bind]; [|done].
    destruct (normalize pts _ _) as [yolo|] eqn:Hyolo; cbn [mbind result_bind]; [|done].
    intros [= <-]. right. exists iid, cid, idx, yolo, ann.
    split; [done|]. split; [done|]. split; [done|].
    split; [by apply normalize_even in Hyolo|].
    split; [by left|]. split; [by exists poly_list|]. split; [done|]. reflexivity.
  - intros [= <-]. left. by exists iid, (WarnUnknownFormat id).
Qed.
End loop_cases.

Section loop_invariants.
Context `{Lib}.

Lemma process_all_count info cm anns st st' :
  foldM (process_annotation info cm) st anns = Ok st' →
  (length (new_annotations st') + length (log st') =
   length (new_annotations st) + length (log st) + length anns)%nat ∧
  (length (log st) ≤ length (log st'))%nat.
Proof.
  revert st. induction anns as [|ann anns IH]; intros st.
  - intros [= <-]. cbn. lia.
  - cbn [foldM]. intros (st1 & Hst1 & Hrest)%bind_Ok.
    destruct (IH _ Hrest) as [-> Hlog]. cbn [length].
    apply process_annotation_cases in Hst1
      as [(m & _ & ->)|[(iid & m & _ & _ & ->)|(iid & cid & idx & yolo & a & Hst1)]].
    + cbn in *. rewrite length_app in *. cbn in *. lia.
    + cbn in *. rewrite length_app in *. cbn in *. lia.
    + destruct Hst1 as (_ & _ & _ & _ & _ & _ & _ & ->).
      cbn in *. rewrite length_app. cbn. lia.
Qed.

Lemma process_all_rewritten info cm anns st st' :
  foldM (process_annotation info cm) st anns = Ok st' →
  ∃ kept news,
    new_annotations st' = new_annotations st ++ news ∧
    kept `sublist_of` anns ∧
    Forall2 rewritten kept news ∧
    Forall polygon_form news ∧
    Forall (well_formed info) kept.
Proof.
  revert st. induction anns as [|ann anns IH]; intros st.
  - intros [= <-]. exists [], []. by rewrite app_nil_r.
  - cbn [foldM]. intros (st1 & Hst1 & Hrest)%bind_Ok.
    destruct (IH _ Hrest) as (kept & news & Hnews & Hsub & Hrew & Hpoly & Hwf).
    apply process_annotation_cases in Hst1
      as [(m & _ & ->)|[(iid & m & _ & _ & ->)|(iid & cid & idx & yolo & a & Hst1)]].
    + exists kept, news. split; [done|]. split; [by apply sublist_cons|]. done.
    + exists kept, news. split; [done|]. split; [by apply sublist_cons|]. done.
    + destruct Hst1 as (_ & _ & _ & _ & Ha & Hpa & Hwfa & ->).
      exists (ann :: kept), (a :: news). cbn in Hnews.
      split; [by rewrite Hnews, <- (assoc_L (++))|].
      split; [by apply sublist_skip|]. repeat split; by constructor.
Qed.

Lemma od_alter_Forall {V} (P : V -> Prop) (f : V -> V) k (d : list (Z * V)) :
  (∀ v, P v → P (f v)) →
  Forall (fun e => P e.2) d → Forall (fun e => P e.2) (od_alter f k d).
Proof.
  intros Hf. induction 1 as [|[k' v] d Hv Hd IH]; [done|].
  cbn in *. case_decide; constructor; cbn; auto.
Qed.

Lemma od_setdefault_Forall {V} (P : V -> Prop) k v (d : list (Z * V)) :
  P v → Forall (fun e => P e.2) d → Forall (fun e => P e.2) (od_setdefault k v d).
Proof.
  intros Hv Hd. unfold od_setdefault. destruct (od_mem k d); [done|].
  apply Forall_app. split; [done|]. by constructor.
Qed.

Lemma process_all_labels info cm anns st st' :
  foldM (process_annotation info cm) st anns = Ok st' →
  Forall (fun e => Forall (label_of_mapping cm) e.2) (image_annotations st) →
  Forall (fun e => Forall (label_of_mapping cm) e.2) (image_annotations st').
Proof.
  revert st. induction anns as [|ann anns IH]; intros st; [by intros [= <-]|].
  cbn [foldM]. intros (st1 & Hst1 & Hrest)%bind_Ok Hst. apply (IH _ Hrest).
  assert (Forall (fun e => Forall (label_of_mapping cm) e.2)
                 (od_setdefault (V:=list (nat * list Q)) 0 [] []) →
          ∀ iid, Forall (fun e => Forall (label_of_mapping cm) e.2)
                        (od_setdefault iid [] (image_annotations st))) as Hdisp.
  { intros _ iid. by apply (od_setdefault_Forall (Forall (label_of_mapping cm))). }
  specialize (Hdisp ltac:(by repeat constructor)).
  apply process_annotation_cases in Hst1
    as [(m & _ & ->)|[(iid & m & _ & _ & ->)|(iid & cid & idx & yolo & a & Hst1)]].
  - done.
  - apply Hdisp.
  - destruct Hst1 as (_ & _ & Hidx & Heven & _ & _ & _ & ->). cbn.
    apply (od_alter_Forall (Forall (label_of_mapping cm))); [|apply Hdisp].
    intros ls Hls. apply Forall_app. split; [done|].
    constructor; [|done]. split; [by exists cid|done].
Qed.

Lemma category_mapping_range (data : dataset) cid idx :
  (build_category_mapping data).1 !! cid = Some idx → (idx < class_count data)%nat.
Proof.
  unfold build_category_mapping, class_count.
  destruct (categories data) as [cats|]; cbn.
  - intros (c & Hc & _)%(dict_of_enumerate_Some cat_id). by apply lookup_lt_Some in Hc.
  - intros (c & Hc & _)%(dict_of_enumerate_Some (fun z : Z => z)).
    apply lookup_lt_Some in Hc. unfold sorted in Hc.
    by rewrite merge_sort_Permutation in Hc.
Qed.
End loop_invariants.

(** ** The image table *)

Lemma build_image_info_fold imgs :
  build_image_info imgs = foldM image_info_step ∅ imgs.
Proof. done. Qed.

Lemma image_info_step_complete m img :
  complete img →
  ∃ id fn w h,
    img_id img = Some id ∧ file_name img = Some fn ∧ width img = Some w ∧
    height img = Some h ∧ image_info_step m img = Ok (<[id := ImgInfo fn w h]> m).
Proof.
  intros ([id Hid] & [fn Hfn] & [w Hw] & [h Hh]). exists id, fn, w, h.
  unfold image_info_step. by rewrite Hid, Hfn, Hw, Hh.
Qed.

Lemma image_info_step_incomplete m img :
  ¬ complete img → image_info_step m img = Raise KeyError.
Proof.
  unfold complete, image_info_step. intros Hnot.
  destruct (file_name img); cbn; [|done].
  destruct (width img); cbn; [|done].
  destruct (height img); cbn; [|done].
  destruct (img_id img); cbn; [|done].
  destruct Hnot. repeat split; by eexists.
Qed.

Lemma image_info_step_Ok m img m' :
  image_info_step m img = Ok m' → complete img.
Proof.
  unfold complete, image_info_step.
  destruct (file_name img); cbn; [|done].
  destruct (width img); cbn; [|done].
  destruct (height img); cbn; [|done].
  destruct (img_id img); cbn; [|done].
  intros _. repeat split; by eexists.
Qed.

Lemma image_info_step_cases m img :
  (complete img ∧ ∃ m', image_info_step m img = Ok m') ∨
  (¬ complete img ∧ image_info_step m img = Raise KeyError).
Proof.
  unfold complete, image_info_step.
  destruct (file_name img); cbn; [|right; split; [by intros (_ & [? [=]] & _)|done]].
  destruct (width img); cbn; [|right; split; [by intros (_ & _ & [? [=]] & _)|done]].
  destruct (height img); cbn; [|right; split; [by intros (_ & _ & _ & [? [=]])|done]].
  destruct (img_id img); cbn; [|right; split; [by intros ([? [=]] & _)|done]].
  left. split; [repeat split|]; by eexists.
Qed.

Lemma image_info_fold_result m imgs :
  (Forall complete imgs ∧ ∃ info, foldM image_info_step m imgs = Ok info) ∨
  (¬ Forall complete imgs ∧ foldM image_info_step m imgs = Raise KeyError).
Proof.
  revert m. induction imgs as [|img imgs IH]; intros m.
  - left. split; [constructor|by eexists].
  - cbn [foldM].
    destruct (image_info_step_cases m img) as [[Himg [m' ->]]|[Himg ->]];
      cbn [mbind result_bind].
    + destruct (IH m') as [[Hall Hinfo]|[Hnot Hraise]].
      * left. split; [by constructor|done].
      * right. split; [|done]. by intros [_ ?]%Forall_cons.
    + right. split; [|done]. by intros [? _]%Forall_cons.
Qed.

Lemma image_info_fold_untouched m imgs info i :
  foldM image_info_step m imgs = Ok info →
  Forall (fun img => img_id img ≠ Some i) imgs → info !! i = m !! i.
Proof.
  revert m. induction imgs as [|img imgs IH]; intros m; [by intros [= <-]|].
  cbn [foldM]. intros (m' & Hstep & Hrest)%bind_Ok [Hi Himgs]%Forall_cons.
  rewrite (IH _ Hrest Himgs).
  destruct (image_info_step_complete m img (image_info_step_Ok _ _ _ Hstep))
    as (id & fn & w & h & Hid & _ & _ & _ & Hm').
  rewrite Hm' in Hstep. injection Hstep as <-.
  apply lookup_insert_ne. congruence.
Qed.

(** ** Merging, in more detail *)

Lemma NoDup_fmap_filter {A B} (f : A -> B) (P : A -> Prop) `{∀ x, Decision (P x)}
    (l : list A) :
  NoDup (f <$> l) → NoDup (f <$> filter P l).
Proof.
  induction l as [|x l IH]; [done|].
  rewrite fmap_cons. intros [Hx Hl]%NoDup_cons.
  rewrite filter_cons. case_decide; [|by apply IH].
  rewrite fmap_cons. apply NoDup_cons. split; [|by apply IH].
  intros (y & Hy & [_ Hin]%list_elem_of_filter)%list_elem_of_fmap.
  apply Hx. apply list_elem_of_fmap. by exists y.
Qed.

Section merge_more.
Import MergeCoco.

Lemma unseen_nil target_images source_images :
  Forall (fun img => fingerprint img ∈ fingerprint <$> target_images) source_images →
  unseen target_images source_images = [].
Proof.
  unfold unseen. induction 1 as [|img imgs Himg _ IH]; [done|].
  by rewrite filter_cons, decide_False by (by intros Hn).
Qed.

Lemma scan_source_nil target_images source_images :
  unseen target_images source_images = [] →
  scan_source (target_image_fingerprints target_images) source_images = ([], ∅).
Proof.
  intros Hunseen.
  destruct (scan_source_spec target_images source_images) as [Hnew Hids].
  cbn zeta in Hnew, Hids. rewrite Hunseen in Hnew.
  destruct (scan_source _ _) as [new_images new_image_ids]. cbn in Hnew, Hids. subst.
  f_equal. apply set_eq. intros id. rewrite Hids. set_solver.
Qed.

Lemma merge_nothing source target :
  unseen (images target) (images source) = [] →
  merge_annotation_files source target =
  (target, Stats 0 0 (length (images target)) (length (annotations target))).
Proof.
  intros Hunseen. unfold merge_annotation_files.
  rewrite (scan_source_nil _ _ Hunseen). cbn [fst snd].
  unfold select_annotations. rewrite decide_False by (by intros Hne).
  cbn. rewrite !app_nil_r. by destruct target.
Qed.

Lemma merged_images source target :
  images (merge_annotation_files source target).1 =
  images target ++ unseen (images target) (images source).
Proof.
  unfold merge_annotation_files. cbn [fst images].
  destruct (scan_source_spec (images target) (images source)) as [Hnew _].
  cbn zeta in Hnew. by rewrite Hnew.
Qed.
End merge_more.

(** ** Splitting, in more detail *)

(** A loop whose turns either succeed, on the items that satisfy [P], or
    raise [e]. *)
Lemma foldM_cases {A B} (P : A -> Prop) (e : exn) (body : B -> A -> result B) l acc :
  (∀ acc x, (P x ∧ ∃ acc', body acc x = Ok acc') ∨ (¬ P x ∧ body acc x = Raise e)) →
  (Forall P l ∧ ∃ r, foldM body acc l = Ok r) ∨
  (¬ Forall P l ∧ foldM body acc l = Raise e).
Proof.
  intros Hbody. revert acc. induction l as [|x l IH]; intros acc.
  - left. split; [constructor|by eexists].
  - cbn [foldM]. destruct (Hbody acc x) as [[Hx [acc' ->]]|[Hx ->]]; cbn [mbind result_bind].
    + destruct (IH acc') as [[Hall Hr]|[Hnot Hraise]].
      * left. split; [by constructor|done].
      * right. split; [|done]. by intros [_ ?]%Forall_cons.
    + right. split; [|done]. by intros [? _]%Forall_cons.
Qed.

Section split_stages.
Import SplitCoco.

Lemma image_id_to_info_cases images :
  (Forall (fun img => is_Some (img_id img)) images ∧
   ∃ info, image_id_to_info images = Ok info) ∨
  (¬ Forall (fun img => is_Some (img_id img)) images ∧
   image_id_to_info images = Raise KeyError).
Proof.
  apply foldM_cases. intros m img.
  destruct (img_id img) as [i|]; [left|right]; cbn; split; eauto;
    try by intros [? [=]].
Qed.

Lemma image_id_to_path_cases dir images :
  (Forall (fun img => is_Some (img_id img) ∧ is_Some (file_name img)) images ∧
   ∃ paths, image_id_to_path dir images = Ok paths) ∨
  (¬ Forall (fun img => is_Some (img_id img) ∧ is_Some (file_name img)) images ∧
   image_id_to_path dir images = Raise KeyError).
Proof.
  apply foldM_cases. intros m img.
  destruct (img_id img) as [i|]; cbn.
  - destruct (file_name img) as [fn|]; cbn; [left|right]; split; eauto;
      try by intros [_ [? [=]]].
  - right. split; [|done]. by intros [[? [=]] _].
Qed.

Lemma group_by_category_cases anns :
  (Forall (fun a => is_Some (category_id a)) anns ∧
   ∃ groups, group_by_category anns = Ok groups) ∨
  (¬ Forall (fun a => is_Some (category_id a)) anns ∧
   group_by_category anns = Raise KeyError).
Proof.
  apply foldM_cases. intros d a.
  destruct (category_id a) as [c|]; [left|right]; cbn; split; eauto;
    try by intros [? [=]].
Qed.

Lemma image_ids_cases anns :
  (Forall (fun a => is_Some (image_id a)) anns ∧ ∃ ids, image_ids anns = Ok ids) ∨
  (¬ Forall (fun a => is_Some (image_id a)) anns ∧ image_ids anns = Raise KeyError).
Proof.
  apply foldM_cases. intros s a.
  destruct (image_id a) as [i|]; [left|right]; cbn; split; eauto;
    try by intros [? [=]].
Qed.

Lemma collect_images_cases (info : gmap Z image) (paths : gmap Z string) ids :
  (Forall (fun i => is_Some (info !! i) ∧ is_Some (paths !! i)) (elements ids) ∧
   ∃ collected, collect_images info paths ids = Ok collected) ∨
  (¬ Forall (fun i => is_Some (info !! i) ∧ is_Some (paths !! i)) (elements ids) ∧
   collect_images info paths ids = Raise KeyError).
Proof.
  apply foldM_cases. intros acc i.
  destruct (info !! i) as [img|]; cbn.
  - destruct (paths !! i) as [path|]; cbn; [left|right]; split; eauto;
      try by intros [_ [? [=]]].
  - right. split; [|done]. by intros [[? [=]] _].
Qed.

(** The two tables are built from the same entries: a path is that of the
    image the id stands for. *)
Lemma tables_agree dir images (info : gmap Z image) (paths : gmap Z string) :
  image_id_to_info images = Ok info → image_id_to_path dir images = Ok paths →
  (∀ i img, info !! i = Some img → img ∈ images ∧ img_id img = Some i) ∧
  (∀ i, paths !! i = info !! i ≫= fun img => (fun fn => dir +:+ fn) <$> file_name img) ∧
  (∀ i, is_Some (info !! i) ↔ Some i ∈ img_id <$> images).
Proof.
  unfold image_id_to_info, image_id_to_path.
  assert (∀ (m : gmap Z image) (p : gmap Z string) seen,
    (∀ i img, m !! i = Some img → img ∈ seen ∧ img_id img = Some i) →
    (∀ i, p !! i = m !! i ≫= fun img => (fun fn => dir +:+ fn) <$> file_name img) →
    (∀ i, is_Some (m !! i) ↔ Some i ∈ img_id <$> seen) →
    foldM (fun (m : gmap Z image) img => i ← subscript (img_id img); Ok (<[i := img]> m))
          m images = Ok info →
    foldM (fun (m : gmap Z string) img =>
             i ← subscript (img_id img);
             fn ← subscript (file_name img);
             Ok (<[i := dir +:+ fn]> m)) p images = Ok paths →
    (∀ i img, info !! i = Some img → img ∈ seen ++ images ∧ img_id img = Some i) ∧
    (∀ i, paths !! i = info !! i ≫= fun img => (fun fn => dir +:+ fn) <$> file_name img) ∧
    (∀ i, is_Some (info !! i) ↔ Some i ∈ img_id <$> seen ++ images)) as Hgen.
  { induction images as [|img images IH]; intros m p seen Hm Hp Hdom.
    - intros [= <-] [= <-]. by rewrite app_nil_r.
    - cbn [foldM]. intros (m' & Hm' & Hinfo)%bind_Ok (p' & Hp' & Hpaths)%bind_Ok.
      destruct (img_id img) as [j|] eqn:Hj; cbn in Hm', Hp'; [|done].
      destruct (file_name img) as [fn|] eqn:Hfn; cbn in Hp'; [|done].
      injection Hm' as <-. injection Hp' as <-.
      rewrite (cons_middle img seen images), (assoc_L (++)).
      apply (IH (<[j:=img]> m) (<[j:=dir +:+ fn]> p) (seen ++ [img])); [| | |done|done].
      + intros i img' [[-> ->]|[_ Hi]]%lookup_insert_Some.
        * split; [|done]. apply elem_of_app. right. by left.
        * destruct (Hm _ _ Hi). split; [|done]. apply elem_of_app. by left.
      + intros i. destruct (decide (j = i)) as [->|Hne].
        * rewrite !lookup_insert_eq. cbn. by rewrite Hfn.
        * by rewrite !lookup_insert_ne.
      + intros i. rewrite lookup_insert_is_Some, fmap_app, elem_of_app, Hdom.
        cbn. rewrite list_elem_of_singleton, Hj. split.
        * intros [->|[Hne Hi]]; [by right|by left].
        * intros [Hi|[= ->]]; [|by left].
          destruct (decide (j = i)) as [->|Hne]; [by left|by right]. }
  intros Hinfo Hpaths.
  apply (Hgen ∅ ∅ []); [| | |done|done].
  - intros i img. by rewrite lookup_empty.
  - intros i. by rewrite !lookup_empty.
  - intros i. rewrite lookup_empty. split; [by intros [? ?]|by intros ?%elem_of_nil].
Qed.

(** [l[:k] + l[k:] == l], for every [k]. *)
Lemma slices_partition {A} (l : list A) (k : Z) : slice_to l k ++ slice_from l k = l.
Proof. unfold slice_to, slice_from. case_decide; apply take_drop. Qed.
End split_stages.

Section split_parts.
Import SplitCoco.

Lemma collect_images_result (info : gmap Z image) (paths : gmap Z string) ids acc collected :
  foldM (fun (acc : list image * list string) img_id =>
           img ← subscript (info !! img_id);
           path ← subscript (paths !! img_id);
           Ok (acc.1 ++ [img], acc.2 ++ [path])) acc ids = Ok collected →
  ∃ imgs copies,
    collected = (acc.1 ++ imgs, acc.2 ++ copies) ∧
    Forall2 (fun i img => info !! i = Some img) ids imgs ∧
    Forall2 (fun i path => paths !! i = Some path) ids copies.
Proof.
  revert acc. induction ids as [|i ids IH]; intros acc.
  - intros [= <-]. exists [], []. rewrite !app_nil_r. by destruct acc.
  - cbn [foldM]. intros (acc' & Hacc' & Hrest)%bind_Ok.
    destruct (info !! i) as [img|] eqn:Himg; cbn in Hacc'; [|done].
    destruct (paths !! i) as [path|] eqn:Hpath; cbn in Hacc'; [|done].
    injection Hacc' as <-.
    destruct (IH _ Hrest) as (imgs & copies & -> & Himgs & Hcopies).
    exists (img :: imgs), (path :: copies). cbn [fst snd].
    rewrite <- !(assoc_L (++)). split; [done|]. split; by constructor.
Qed.

(** One output of the split: its image identifiers and its images, or the
    [KeyError] of line 53-54 or of line 57/61. *)
Lemma part_outcome (info : gmap Z image) (paths : gmap Z string)
    (all_images : list image) (anns : list annotation) :
  (∀ i, is_Some (info !! i) ↔ Some i ∈ img_id <$> all_images) →
  (∀ i, is_Some (info !! i) → is_Some (paths !! i)) →
  (Forall (refers_to all_images) anns ∧
   ∃ ids imgs copies,
     image_ids anns = Ok ids ∧
     collect_images info paths ids = Ok (imgs, copies) ∧
     (∀ i, i ∈ ids ↔ ∃ a, a ∈ anns ∧ image_id a = Some i) ∧
     Forall2 (fun i img => info !! i = Some img) (elements ids) imgs ∧
     Forall2 (fun i path => paths !! i = Some path) (elements ids) copies) ∨
  (¬ Forall (refers_to all_images) anns ∧
   (image_ids anns = Raise KeyError ∨
    ∃ ids, image_ids anns = Ok ids ∧ collect_images info paths ids = Raise KeyError)).
Proof.
  intros Hdom Hpaths.
  destruct (image_ids_cases anns) as [[Hall [ids Hids]]|[Hnot Hraise]].
  2:{ right. split; [|by left]. intros Hrefs. apply Hnot.
      eapply Forall_impl; [exact Hrefs|]. intros a (i & -> & _). by eexists. }
  destruct (image_ids_spec anns Hall) as (ids' & Hids' & Hmem).
  assert (ids' = ids) as -> by congruence.
  destruct (collect_images_cases info paths ids) as [[Hin [collected Hc]]|[Hnot Hraise]].
  - left. split.
    + apply Forall_forall. intros a Ha. rewrite Forall_forall in Hall.
      destruct (Hall a Ha) as [i Hi]. exists i. split; [done|]. apply Hdom.
      rewrite Forall_forall in Hin. apply Hin, elem_of_elements, Hmem. by exists a.
    + pose proof Hc as Hc'. apply collect_images_result in Hc'
        as (imgs & copies & -> & Himgs & Hcopies).
      by exists ids, imgs, copies.
  - right. split; [|right; by exists ids]. intros Hrefs. apply Hnot.
    apply Forall_forall. intros i (a & Ha & Hi)%elem_of_elements%Hmem.
    rewrite Forall_forall in Hrefs. destruct (Hrefs a Ha) as (j & Hj & Hin).
    assert (j = i) as -> by congruence. apply Hdom in Hin. split; [done|by apply Hpaths].
Qed.
End split_parts.

Section split_outcome.
Import SplitCoco.
Context {rng : Type} (shuffle : rng -> list annotation -> list annotation * rng).
Hypothesis shuffle_permutes : ∀ g l, (shuffle g l).1 ≡ₚ l.

Lemma split_categories_partition r g groups :
  ∃ train val g',
    split_categories shuffle r g groups = (train, val, g') ∧
    train ++ val ≡ₚ concat groups.*2.
Proof.
  induction groups as [|group groups IH] using rev_ind.
  - by exists [], [], g.
  - destruct IH as (train & val & g1 & Hsplit & Hperm).
    rewrite split_categories_snoc, Hsplit.
    pose proof (shuffle_permutes g1 group.2) as Hsh.
    destruct (shuffle g1 group.2) as [anns g2]. cbn [fst] in Hsh.
    cbn beta iota zeta. eexists _, _, _. split; [reflexivity|].
    rewrite fmap_app, concat_app. cbn. rewrite app_nil_r.
    set (k := int _).
    trans ((train ++ val) ++ (slice_to anns k ++ slice_from anns k)).
    + rewrite <- !(assoc_L (++)). f_equiv. rewrite !(assoc_L (++)). f_equiv.
      apply Permutation_app_comm.
    + by rewrite slices_partition, Hperm, Hsh.
Qed.
End split_outcome.

Section split_master.
Import SplitCoco.
Context {rng : Type} (shuffle : rng -> list annotation -> list annotation * rng).
Hypothesis shuffle_permutes : ∀ g l, (shuffle g l).1 ≡ₚ l.

Lemma split_outcome data dir r g :
  (splittable data ∧
   ∃ train val,
     split_coco_dataset_by_category shuffle data dir r g = Ok (train, val) ∧
     split_trace shuffle data dir r g train val) ∨
  (¬ splittable data ∧
   split_coco_dataset_by_category shuffle data dir r g = Raise KeyError).
Proof.
  unfold split_coco_dataset_by_category, splittable.
  destruct (categories data) as [cats|] eqn:Hcats; cbn [subscript mbind result_bind].
  2:{ right. split; [|done]. by intros [[? [=]] _]. }
  destruct (image_id_to_path_cases dir (images data)) as [[Himgs [paths Hpaths]]|[Hnot Hraise]].
  2:{ right. split; [by intros (_ & ? & _)|].
      destruct (image_id_to_info_cases (images data)) as [[_ [info ->]]|[_ ->]];
        cbn [mbind result_bind]; [by rewrite Hraise|done]. }
  destruct (image_id_to_info_cases (images data)) as [[_ [info Hinfo]]|[Hnot _]].
  2:{ exfalso. apply Hnot. eapply Forall_impl; [exact Himgs|]. by intros img [? _]. }
  rewrite Hinfo, Hpaths. cbn [mbind result_bind].
  destruct (tables_agree dir _ _ _ Hinfo Hpaths) as (Hown & Hagree & Hdom).
  assert (∀ i, is_Some (info !! i) → is_Some (paths !! i)) as Hboth.
  { intros i [img Himg]. rewrite Hagree, Himg. cbn.
    destruct (Hown _ _ Himg) as [Hin _]. rewrite Forall_forall in Himgs.
    destruct (Himgs img Hin) as [_ [fn ->]]. by eexists. }
  destruct (group_by_category_cases (annotations data)) as [[Hcat [groups Hgroups]]|[Hnot Hraise]].
  2:{ right. rewrite Hraise. split; [|done]. intros (_ & _ & Hanns). apply Hnot.
      eapply Forall_impl; [exact Hanns|]. by intros a [? _]. }
  rewrite Hgroups. cbn [mbind result_bind].
  destruct (group_by_category_spec _ Hcat) as (groups' & Hgroups' & _ & _ & Hperm).
  assert (groups' = groups) as -> by congruence.
  destruct (split_categories_partition shuffle shuffle_permutes r g groups)
    as (train_anns & val_anns & g' & Hsplit & Hpart).
  rewrite Hsplit.
  assert (train_anns ++ val_anns ≡ₚ annotations data) as Hall by (by rewrite Hpart).
  assert (Forall (refers_to (images data)) train_anns ∧
          Forall (refers_to (images data)) val_anns ↔
          Forall (refers_to (images data)) (annotations data)) as Hrefs.
  { by rewrite <- Hall, Forall_app. }
  destruct (part_outcome info paths (images data) train_anns Hdom Hboth)
    as [[Ht (tids & timgs & tcopies & Htids & Htc & Htmem & Hti & Htp)]|[Ht Htraise]];
  destruct (part_outcome info paths (images data) val_anns Hdom Hboth)
    as [[Hv (vids & vimgs & vcopies & Hvids & Hvc & Hvmem & Hvi & Hvp)]|[Hv Hvraise]].
  - left. split.
    + split; [done|]. split; [done|]. apply Forall_forall. intros a Ha.
      rewrite Forall_forall in Hcat. split; [by apply Hcat|].
      assert (Forall (refers_to (images data)) (annotations data)) as Hr by (by apply Hrefs).
      rewrite Forall_forall in Hr. by apply Hr.
    + rewrite Htids, Hvids. cbn [mbind result_bind].
      rewrite Htc, Hvc. cbn [mbind result_bind fst snd].
      eexists _, _. split; [reflexivity|].
      exists cats, info, paths, groups, g', tids, vids. cbn [coco copied annotations images categories ds_rest].
      repeat (split; [done|]). done.
  - right. split.
    + intros (_ & _ & Hanns). apply Hv, Hrefs.
      eapply Forall_impl; [exact Hanns|]. by intros a [_ ?].
    + rewrite Htids. cbn [mbind result_bind].
      destruct Hvraise as [->|(vids & -> & Hvc)]; cbn [mbind result_bind]; [done|].
      rewrite Htc. cbn [mbind result_bind]. by rewrite Hvc.
  - right. split.
    + intros (_ & _ & Hanns). apply Ht, Hrefs.
      eapply Forall_impl; [exact Hanns|]. by intros a [_ ?].
    + destruct Htraise as [->|(tids & -> & Htc)]; cbn [mbind result_bind]; [done|].
      rewrite Hvids. cbn [mbind result_bind]. by rewrite Htc.
  - right. split.
    + intros (_ & _ & Hanns). apply Ht, Hrefs.
      eapply Forall_impl; [exact Hanns|]. by intros a [_ ?].
    + destruct Htraise as [->|(tids & -> & Htc)]; cbn [mbind result_bind]; [done|].
      destruct Hvraise as [->|(vids & -> & Hvc)]; cbn [mbind result_bind]; [done|].
      by rewrite Htc.
Qed.
End split_master.

Section split_extremes.
Import SplitCoco.
Context {rng : Type} (shuffle : rng -> list annotation -> list annotation * rng).

Lemma int_at_least (r : Q) (n : nat) :
  (1 <= r)%Q → Z.of_nat n ≤ int (inject_Z (Z.of_nat n) * r).
Proof.
  intros Hr.
  assert (0 <= inject_Z (Z.of_nat n))%Q as Hn.
  { change 0%Q with (inject_Z 0). rewrite <- Zle_Qle. lia. }
  assert (inject_Z (Z.of_nat n) <= inject_Z (Z.of_nat n) * r)%Q as Hle.
  { rewrite <- (Qmult_1_r (inject_Z (Z.of_nat n))) at 1.
    rewrite !(Qmult_comm (inject_Z (Z.of_nat n))). by apply Qmult_le_compat_r. }
  assert (0 <= inject_Z (Z.of_nat n) * r)%Q as H0 by (by eapply Qle_trans).
  unfold int. apply Qle_bool_iff in H0. rewrite H0.
  rewrite <- (Qfloor_Z (Z.of_nat n)) at 1. by apply Qfloor_resp_le.
Qed.

Lemma int_zero (r : Q) (n : nat) :
  (r == 0)%Q → int (inject_Z (Z.of_nat n) * r) = 0.
Proof.
  intros Hr. assert (inject_Z (Z.of_nat n) * r == 0)%Q as H0.
  { rewrite Hr. apply Qmult_0_r. }
  unfold int.
  assert (Qle_bool 0 (inject_Z (Z.of_nat n) * r) = true) as ->.
  { apply Qle_bool_iff. rewrite H0. apply Qle_refl. }
  by rewrite (Qfloor_comp _ _ H0).
Qed.

Lemma split_categories_all_train r g groups :
  (1 <= r)%Q → (split_categories shuffle r g groups).1.2 = [].
Proof.
  intros Hr. induction groups as [|group groups IH] using rev_ind; [done|].
  rewrite split_categories_snoc.
  destruct (split_categories shuffle r g groups) as [[train val] g1]. cbn in IH. subst val.
  destruct (shuffle g1 group.2) as [anns g2]. cbn.
  pose proof (int_at_least r (length anns) Hr) as Hk.
  unfold slice_from. rewrite decide_False by lia. apply drop_ge. lia.
Qed.

Lemma split_categories_all_val r g groups :
  (r == 0)%Q → (split_categories shuffle r g groups).1.1 = [].
Proof.
  intros Hr. induction groups as [|group groups IH] using rev_ind; [done|].
  rewrite split_categories_snoc.
  destruct (split_categories shuffle r g groups) as [[train val] g1]. cbn in IH. subst train.
  destruct (shuffle g1 group.2) as [anns g2]. cbn.
  by rewrite (int_zero r (length anns) Hr).
Qed.

Lemma no_annotations_no_images (info : gmap Z image) (paths : gmap Z string)
    (ids : gset Z) (imgs : list image) (copies : list string) :
  (∀ i, i ∈ ids ↔ ∃ a : annotation, a ∈ [] ∧ image_id a = Some i) →
  Forall2 (fun i img => info !! i = Some img) (elements ids) imgs →
  Forall2 (fun i path => paths !! i = Some path) (elements ids) copies →
  imgs = [] ∧ copies = [].
Proof.
  intros Hmem Himgs Hcopies.
  assert (ids = ∅) as ->.
  { apply set_eq. intros i. rewrite Hmem. split; [|set_solver].
    by intros (a & ?%elem_of_nil & _). }
  rewrite elements_empty in Himgs, Hcopies.
  by apply Forall2_nil_inv_l in Himgs, Hcopies.
Qed.

Lemma copies_of_images dir (info : gmap Z image) (paths : gmap Z string)
    (ids : list Z) (imgs : list image) (copies : list string) :
  (∀ i, paths !! i = info !! i ≫= fun img => (fun fn => dir +:+ fn) <$> file_name img) →
  Forall2 (fun i img => info !! i = Some img) ids imgs →
  Forall2 (fun i path => paths !! i = Some path) ids copies →
  Forall2 (fun img path => (fun fn => dir +:+ fn) <$> file_name img = Some path) imgs copies.
Proof.
  intros Hagree Himgs. revert copies.
  induction Himgs as [|i img ids imgs Hi _ IH]; intros copies Hcopies.
  - apply Forall2_nil_inv_l in Hcopies as ->. constructor.
  - apply Forall2_cons_inv_l in Hcopies as (path & copies' & Hpath & Hcopies & ->).
    constructor; [|by apply IH].
    rewrite Hagree, Hi in Hpath. done.
Qed.
End split_extremes.

Section inert_records.
Context `{Lib}.

Lemma process_annotation_log info cm na ia L a :
  process_annotation info cm (State na ia L) a =
  match process_annotation info cm (State na ia []) a with
  | Ok st => Ok (State (new_annotations st) (image_annotations st) (L ++ log st))
  | Raise e => Raise e
  end.
Proof.
  unfold process_annotation, print, accept. cbn.
  repeat (match goal with
          | |- context [mbind _ ?r] => destruct r as [?|?] eqn:?
          | |- context [match ?x with _ => _ end] =>
              lazymatch x with
              | context [match _ with _ => _ end] => fail
              | context [mbind] => fail
              | _ => destruct x eqn:?
              end
          end; cbn; rewrite ?app_nil_r; try done).
Qed.

Lemma process_all_log info cm na ia L anns :
  foldM (process_annotation info cm) (State na ia L) anns =
  match foldM (process_annotation info cm) (State na ia []) anns with
  | Ok st => Ok (State (new_annotations st) (image_annotations st) (L ++ log st))
  | Raise e => Raise e
  end.
Proof.
  revert na ia L. induction anns as [|a anns IH]; intros na ia L.
  - cbn. by rewrite app_nil_r.
  - cbn [foldM]. rewrite process_annotation_log.
    destruct (process_annotation info cm (State na ia []) a) as [[na1 ia1 L1]|e];
      cbn; [|done].
    rewrite (IH na1 ia1 (L ++ L1)), (IH na1 ia1 L1).
    destruct (foldM _ (State na1 ia1 []) anns) as [st|e]; cbn; [|done].
    by rewrite app_assoc.
Qed.

Lemma skipped_step info cm a :
  ann_id a = None ∨ image_id a = None ∨ category_id a = None ∨ segmentation a = None ∨
    (∃ i, image_id a = Some i ∧ info !! i = None) →
  ∃ m, ∀ st, process_annotation info cm st a = Ok (print m st).
Proof.
  unfold process_annotation. intros Hbad.
  destruct (ann_id a) as [id|] eqn:Hid;
    destruct (image_id a) as [iid|] eqn:Hiid;
    destruct (category_id a) as [cid|] eqn:Hcid;
    destruct (segmentation a) as [sg|] eqn:Hseg;
    try (by eexists); try (case_decide; by eexists).
  destruct Hbad as [?|[?|[?|[?|(i & [= <-] & ->)]]]]; try done. by eexists.
Qed.

Lemma category_mapping_skip imgs cats anns1 a anns2 rest :
  is_Some cats ∨ category_id a = None →
  build_category_mapping (Dataset imgs cats (anns1 ++ a :: anns2) rest) =
  build_category_mapping (Dataset imgs cats (anns1 ++ anns2) rest).
Proof.
  unfold build_category_mapping. cbn [annotations categories].
  destruct cats as [cats|]; [done|].
  intros [[? [=]]|Ha].
  assert (unique_cats (anns1 ++ a :: anns2) = unique_cats (anns1 ++ anns2)) as ->; [|done].
  apply set_eq. intros c. rewrite !unique_cats_spec.
  setoid_rewrite elem_of_app. setoid_rewrite elem_of_cons.
  split.
  - intros (b & [?|[->|?]] & Hb); [by eauto| congruence | by eauto].
  - intros (b & [?|?] & Hb); eauto 6.
Qed.
End inert_records.

Section replay_run.
Context `{Lib}.

Lemma label_set_accept i iid label d :
  label_set i (od_alter (fun ls => ls ++ [label]) iid (od_setdefault iid [] d)) =
  label_set i d ++ if decide (iid = i) then [label] else [].
Proof.
  unfold label_set. rewrite od_get_alter, od_get_setdefault.
  destruct (decide (iid = i)) as [->|Hi]; destruct (od_get i d); cbn;
    rewrite ?decide_True by done; rewrite ?app_nil_r; done.
Qed.

Lemma label_set_setdefault i iid d :
  label_set i (od_setdefault iid [] d) = label_set i d.
Proof.
  unfold label_set. rewrite od_get_setdefault.
  destruct (od_get i d); [done|]. by case_decide.
Qed.

Lemma rle_pair_replay rle h w simplify epsilon normalized flattened :
  rle_to_yolo_polygon rle h w simplify epsilon = Ok (RetPair normalized flattened) →
  normalize (PNum <$> (inject_Z <$> flattened)) w h = Ok normalized.
Proof.
  unfold rle_to_yolo_polygon.
  destruct (decode _) as [mask|]; cbn [mbind result_bind]; [|done].
  destruct (findContours mask) as [|c cs]; [done|].
  destruct (max_key Qltb (fun c => Ok (contourArea c)) (c :: cs)) as [largest|];
    cbn [mbind result_bind]; [|done].
  rewrite (list_fmap_compose inject_Z PNum).
  destruct (normalize _ w h) as [out|] eqn:Hout; cbn [mbind result_bind]; [|done].
  by intros [= <- <-].
Qed.

Lemma process_annotation_replay info cm st ann st' :
  process_annotation info cm st ann = Ok st' →
  (new_annotations st' = new_annotations st ∧
   ∀ i, label_set i (image_annotations st') = label_set i (image_annotations st)) ∨
  (∃ a iid cid idx yolo,
     new_annotations st' = new_annotations st ++ [a] ∧
     category_id a = Some cid ∧ cm !! cid = Some idx ∧
     (∀ i, label_set i (image_annotations st') =
           label_set i (image_annotations st) ++
           if decide (iid = i) then [(idx, yolo)] else []) ∧
     ∀ cm' idx' st2, cm' !! cid = Some idx' →
       process_annotation info cm' st2 a = Ok (accept iid (idx', yolo) a (dispatched iid st2))).
Proof.
  unfold process_annotation at 1.
  destruct (ann_id ann) as [id|] eqn:Hid;
    destruct (image_id ann) as [iid|] eqn:Hiid;
    destruct (category_id ann) as [cid|] eqn:Hcid;
    destruct (segmentation ann) as [sg|] eqn:Hseg;
    try (repeat case_decide; intros [= <-]; by left).
  destruct (info !! iid) as [inf|] eqn:Hinf; [|intros [= <-]; by left].
  destruct (cm !! cid) as [idx|] eqn:Hidx; cbn [subscript mbind result_bind]; [|done].
  destruct sg as [rle|poly_list|].
  - destruct (rle_to_yolo_polygon _ _ _ _ _) as [[|yolo raw]|] eqn:Hrle;
      cbn [unpack2 mbind result_bind]; try done.
    destruct yolo as [|q yolo].
    { intros [= <-]. left. cbn. split; [done|]. intros i. apply label_set_setdefault. }
    intros [= <-]. right. eexists _, iid, cid, idx, (q :: yolo).
    split; [done|]. split; [done|]. split; [done|].
    split; [intros i; apply label_set_accept|].
    intros cm' idx' st2 Hidx'.
    erewrite process_polygon; [|cbn; done..|exact Hinf|exact Hidx'].
    cbn. rewrite (rle_pair_replay _ _ _ _ _ _ _ Hrle). done.
  - destruct (poly_points poly_list) as [pts|] eqn:Hpts; cbn [mbind result_bind]; [|done].
    destruct (normalize pts _ _) as [yolo|] eqn:Hyolo; cbn [mbind result_bind]; [|done].
    intros [= <-]. right. exists ann, iid, cid, idx, yolo.
    split; [done|]. split; [done|]. split; [done|].
    split; [intros i; apply label_set_accept|].
    intros cm' idx' st2 Hidx'.
    erewrite process_polygon; [|done..|exact Hinf|exact Hidx'].
    rewrite Hpts. cbn. rewrite Hyolo. done.
  - intros [= <-]. left. cbn. split; [done|]. intros i. apply label_set_setdefault.
Qed.

Lemma process_all_replay info cm anns st1 st1' :
  foldM (process_annotation info cm) st1 anns = Ok st1' →
  ∃ added,
    new_annotations st1' = new_annotations st1 ++ added ∧
    Forall (fun a => ∃ cid, category_id a = Some cid ∧ is_Some (cm !! cid)) added ∧
    ∀ cm' st2,
      Forall (fun a => ∀ cid, category_id a = Some cid → is_Some (cm' !! cid)) added →
      ∃ st2',
        foldM (process_annotation info cm') st2 added = Ok st2' ∧
        new_annotations st2' = new_annotations st2 ++ added ∧
        log st2' = log st2 ∧
        (Forall (fun a => ∀ cid, category_id a = Some cid → cm' !! cid = cm !! cid) added →
         (∀ i, label_set i (image_annotations st2) = label_set i (image_annotations st1)) →
         ∀ i, label_set i (image_annotations st2') = label_set i (image_annotations st1')).
Proof.
  revert st1. induction anns as [|ann anns IH]; intros st1.
  - intros [= <-]. exists []. rewrite app_nil_r. split; [done|]. split; [done|].
    intros cm' st2 _. exists st2. by rewrite app_nil_r.
  - cbn [foldM]. intros (st & Hstep & Hrest)%bind_Ok.
    destruct (IH _ Hrest) as (added & Hna & Hcats & Hreplay).
    destruct (process_annotation_replay _ _ _ _ _ Hstep)
      as [[Hsame Hlab]|(a & iid & cid & idx & yolo & Hnew & Hcid & Hidx & Hlab & Hagain)].
    + exists added. rewrite Hna, Hsame. split; [done|]. split; [done|].
      intros cm' st2 Hcm'. destruct (Hreplay cm' st2 Hcm') as (st2' & ? & ? & ? & Hl).
      exists st2'. repeat (split; [done|]). intros Hagree Hst2. apply Hl; [done|].
      intros i. by rewrite Hlab.
    + exists (a :: added). rewrite Hna, Hnew, <- app_assoc. split; [done|].
      split; [constructor; eauto|].
      intros cm' st2 [Ha Hadded]%Forall_cons.
      destruct (Ha cid Hcid) as [idx' Hidx'].
      destruct (Hreplay cm' (accept iid (idx', yolo) a (dispatched iid st2)) Hadded)
        as (st2' & Hrun & Hna2 & Hlog2 & Hl).
      exists st2'. cbn [foldM]. rewrite (Hagain cm' idx' st2 Hidx'). cbn [mbind result_bind].
      split; [done|]. split; [by rewrite Hna2; cbn; rewrite <- app_assoc|].
      split; [by rewrite Hlog2|].
      intros [Hcid' Hagree]%Forall_cons Hst2. apply Hl; [done|].
      intros i. rewrite Hlab. cbn [accept dispatched image_annotations].
      rewrite label_set_accept, Hst2.
      assert (idx' = idx) as -> by (rewrite (Hcid' cid Hcid), Hidx in Hidx'; congruence).
      done.
Qed.

Lemma write_labels_total info (d : list (Z * list (nat * list Q))) :
  (∀ i, i ∈ d.*1 → is_Some (info !! i)) → ∃ files, write_labels info d = Ok files.
Proof.
  unfold write_labels. induction d as [|[i ls] d IH]; intros Hd; [by eexists|].
  cbn [mapM]. destruct (Hd i) as [inf Hinf]; [by left|].
  destruct IH as [files Hfiles]; [intros j Hj; apply Hd; by right|].
  cbn. rewrite Hinf. cbn. rewrite Hfiles. cbn. by eexists.
Qed.
End replay_run.

(** * Further properties of the scripts *)

(** ** make_image_list.py *)

(** X1.  The names found in a list are the names found in its items, in
    order; the names found in an object that lacks the key are those found in
    its values, in entry order.  The special treatment of objects in the loop
    of lines 11-19 makes no difference. *)
Theorem extract_concatenates (key : string) :
  (∀ items,
     MakeImageList.extract_image_names (MakeImageList.JArr items) key =
     mjoin ((fun item => MakeImageList.extract_image_names item key) <$> items)) ∧
  (∀ entries,
     MakeImageList.get key entries = None →
     MakeImageList.extract_image_names (MakeImageList.JObj entries) key =
     mjoin ((fun kv : string * MakeImageList.json =>
               MakeImageList.extract_image_names kv.2 key) <$> entries)).
Proof.
  split.
  - intros items. apply extract_array.
  - intros entries Hget. by apply extract_object.
Qed.

(** A document without the key at its top level. *)
Lemma extract_concatenates_witness :
  MakeImageList.extract_image_names
    (MakeImageList.JObj
       [("info", MakeImageList.JStr "x");
        ("images",
         MakeImageList.JArr
           [MakeImageList.JObj [("file_name", MakeImageList.JStr "a.jpg")];
            MakeImageList.JObj [("file_name", MakeImageList.JStr "b.jpg")]])])
    "file_name"
  = [MakeImageList.JStr "a.jpg"; MakeImageList.JStr "b.jpg"].
Proof.
  rewrite (proj2 (extract_concatenates "file_name")) by reflexivity.
  reflexivity.
Defined.

(** X2.  A value is returned exactly when it is stored under the key in an
    object that is not nested inside another object carrying the key:
    below an object that has the key nothing is searched. *)
Theorem extract_outermost (key : string) (name j : MakeImageList.json) :
  name ∈ MakeImageList.extract_image_names j key ↔ outermost key name j.
Proof. apply extract_outermost_iff. Qed.

(** X3.  For a dataset document, an object without the key at its top
    level, one of whose entries is a list of records that all carry the key
    while no other entry stores the key anywhere, the result is the records'
    values, one per record and in the order of the records. *)
Theorem extract_dataset_names (key k : string)
    (before after : list (string * MakeImageList.json))
    (records : list (list (string * MakeImageList.json))) :
  MakeImageList.get key
    (before ++ (k, MakeImageList.JArr (MakeImageList.JObj <$> records)) :: after) = None →
  Forall (fun entries => is_Some (MakeImageList.get key entries)) records →
  Forall (fun kv => ∀ name, ¬ stored key name kv.2) (before ++ after) →
  MakeImageList.extract_image_names
    (MakeImageList.JObj
       (before ++ (k, MakeImageList.JArr (MakeImageList.JObj <$> records)) :: after)) key
    = omap (MakeImageList.get key) records ∧
  length (omap (MakeImageList.get key) records) = length records.
Proof.
  intros Hget Hrecords [Hbefore Hafter]%Forall_app. split.
  - rewrite (extract_object _ _ Hget), fmap_app, fmap_cons, join_app.
    cbn [mjoin list_join snd].
    rewrite (join_nil_2 (_ <$> before)), (join_nil_2 (_ <$> after)).
    + by rewrite app_nil_r, extract_records.
    + apply Forall_fmap. eapply Forall_impl; [exact Hafter|].
      intros kv Hkv. by apply extract_not_stored.
    + apply Forall_fmap. eapply Forall_impl; [exact Hbefore|].
      intros kv Hkv. by apply extract_not_stored.
  - clear -Hrecords. induction Hrecords as [|entries records [name Hname] _ IH]; [done|].
    cbn. rewrite Hname. cbn. by rewrite IH.
Qed.

(** Images between an info entry and an annotations entry. *)
Lemma extract_dataset_names_witness :
  MakeImageList.extract_image_names
    (MakeImageList.JObj
       ([("info", MakeImageList.JStr "x")] ++
        ("images",
         MakeImageList.JArr
           (MakeImageList.JObj <$>
              [[("id", MakeImageList.JNum 1); ("file_name", MakeImageList.JStr "a.jpg")];
               [("id", MakeImageList.JNum 2); ("file_name", MakeImageList.JStr "b.jpg")]]))
        :: [("annotations", MakeImageList.JArr [])]))
    "file_name"
  = [MakeImageList.JStr "a.jpg"; MakeImageList.JStr "b.jpg"].
Proof.
  refine (proj1 (extract_dataset_names "file_name" "images"
                   [("info", MakeImageList.JStr "x")]
                   [("annotations", MakeImageList.JArr [])]
                   [[("id", MakeImageList.JNum 1); ("file_name", MakeImageList.JStr "a.jpg")];
                    [("id", MakeImageList.JNum 2); ("file_name", MakeImageList.JStr "b.jpg")]]
                   eq_refl _ _)).
  - repeat first [apply Forall_nil_2 | apply Forall_cons_2]; by eexists.
  - repeat first [apply Forall_nil_2 | apply Forall_cons_2]; intros name Hname;
      inversion Hname as [ | items item Hin _ | ]; by apply elem_of_nil in Hin.
Defined.


(** ** generate_labels.py: boxes *)







(** ** generate_labels.py: coordinates and masks *)

(** X8.  Normalization keeps every coordinate on its side of the image
    borders: for positive image dimensions, an output value is at least 0
    exactly when the pixel coordinate is, and at most 1 exactly when the
    pixel coordinate is at most the width (for an x) or the height (for a
    y).  Coordinates inside the image land in the unit interval, and a
    coordinate outside it is not pulled back. *)
Theorem normalize_keeps_side (p : list Q) (w h : Z) :
  Nat.Even (length p) → 0 < w → 0 < h →
  ∃ out,
    normalize (PNum <$> p) w h = Ok out ∧
    ∀ i x, p !! i = Some x →
      ∃ v, out !! i = Some v ∧
           ((0 <= v)%Q ↔ (0 <= x)%Q) ∧
           ((v <= 1)%Q ↔ (x <= inject_Z (if Nat.even i then w else h))%Q).
Proof.
  intros Heven Hw Hh. exists (unit_space p w h).
  rewrite normalize_numbers by lia.
  apply Nat.even_spec in Heven. rewrite Heven. split; [done|].
  intros i x Hi. eexists. split.
  - unfold unit_space. by rewrite list_lookup_imap, Hi.
  - assert (0 < dim w h i)%Q as Hd.
    { unfold dim. apply inject_Z_pos. by destruct (Nat.even i). }
    split; [by apply Qdiv_nonneg | by apply Qdiv_le_1].
Qed.

(** A point to the right of a 100x200 image. *)
Lemma normalize_keeps_side_witness :
  ∃ out,
    normalize (PNum <$> [150; 20]%Q) 100 200 = Ok out ∧
    ∀ i x, [150; 20]%Q !! i = Some x →
      ∃ v, out !! i = Some v ∧
           ((0 <= v)%Q ↔ (0 <= x)%Q) ∧
           ((v <= 1)%Q ↔ (x <= inject_Z (if Nat.even i then 100 else 200))%Q).
Proof.
  apply (normalize_keeps_side [150; 20]%Q 100 200); [by exists 1%nat|lia..].
Defined.

(** X9.  When the mask decodes and the image dimensions are not zero,
    [rle_to_yolo_polygon] raises nothing: without a contour it returns the
    empty list, and otherwise the pair built from the first contour of
    greatest area, simplified when asked: its flattened points, an even
    number of them, and the same points divided by width and height. *)
Theorem rle_to_yolo_polygon_total `{Lib} (rle : rle_arg) (img_height img_width : Z)
    (simplify : bool) (epsilon : Q) (mask : binary_mask) :
  decode (match rle with
          | RleCounts l => Rle l [img_height; img_width]
          | RleDict r => r
          end) = Ok mask →
  img_width ≠ 0 → img_height ≠ 0 →
  (findContours mask = [] ∧
   rle_to_yolo_polygon rle img_height img_width simplify epsilon = Ok RetEmptyList) ∨
  (∃ k c flattened,
     first_largest (findContours mask) k c ∧
     flattened = flatten (if simplify then approxPolyDP c epsilon true else c) ∧
     Nat.Even (length flattened) ∧
     rle_to_yolo_polygon rle img_height img_width simplify epsilon
       = Ok (RetPair (unit_space (inject_Z <$> flattened) img_width img_height) flattened)).
Proof.
  intros Hdec Hw Hh. unfold rle_to_yolo_polygon. rewrite Hdec.
  cbn [mbind result_bind].
  destruct (findContours mask) as [|c0 rest]; [by left|]. right.
  destruct (max_key_first_largest c0 rest) as (k & c & -> & Hc).
  cbn [mbind result_bind].
  exists k, c, (flatten (if simplify then approxPolyDP c epsilon true else c)).
  assert (Nat.Even (length (flatten (if simplify then approxPolyDP c epsilon true else c))))
    as Heven by (rewrite flatten_length; by eexists).
  split; [done|]. split; [done|]. split; [done|].
  rewrite (list_fmap_compose inject_Z PNum), normalize_numbers by done.
  rewrite length_fmap. apply Nat.even_spec in Heven. by rewrite Heven.
Qed.

(** A 2x2 mask with two foreground pixels, on a 4x2 image. *)
Lemma rle_to_yolo_polygon_total_witness :
  ∃ k c flattened,
    first_largest (H:=toy_lib) (toy_findContours [[false; true]; [true; false]]) k c ∧
    flattened = flatten c ∧
    Nat.Even (length flattened) ∧
    rle_to_yolo_polygon (H:=toy_lib) (RleCounts [1; 2; 1]) 2 2 true 1
      = Ok (RetPair (unit_space (inject_Z <$> flattened) 2 2) flattened).
Proof.
  destruct (rle_to_yolo_polygon_total (H:=toy_lib) (RleCounts [1; 2; 1]) 2 2 true 1
              [[false; true]; [true; false]] eq_refl)
    as [[Hnone _]|Hsome]; [done|done|discriminate Hnone|exact Hsome].
Defined.

(** ** generate_labels.py: the conversion run *)

(** X10.  The image table is built exactly when every image entry has an
    id, a file name, a width and a height, and the run ends with [KeyError]
    otherwise.  In the table an id stands for the last image entry that
    carries it. *)
Theorem image_table_built (imgs : list image) :
  ((∃ info, build_image_info imgs = Ok info) ↔ Forall complete imgs) ∧
  (¬ Forall complete imgs → build_image_info imgs = Raise KeyError) ∧
  (∀ info before img after i,
     build_image_info imgs = Ok info →
     imgs = before ++ img :: after → img_id img = Some i →
     Forall (fun img' => img_id img' ≠ Some i) after →
     ∃ fn w h,
       file_name img = Some fn ∧ width img = Some w ∧ height img = Some h ∧
       info !! i = Some (ImgInfo fn w h)).
Proof.
  rewrite build_image_info_fold. split; [|split].
  - destruct (image_info_fold_result ∅ imgs) as [[Hall Hinfo]|[Hnot Hraise]].
    + done.
    + rewrite Hraise. split; [by intros [? ?]|done].
  - intros Hnot. by destruct (image_info_fold_result ∅ imgs) as [[Hall _]|[_ Hraise]].
  - intros info before img after i Hinfo -> Hi Hafter.
    rewrite foldM_app in Hinfo. apply bind_Ok in Hinfo as (m & Hm & Hinfo).
    cbn [foldM] in Hinfo. apply bind_Ok in Hinfo as (m' & Hstep & Hrest).
    destruct (image_info_step_complete m img (image_info_step_Ok _ _ _ Hstep))
      as (id & fn & w & h & Hid & Hfn & Hw & Hh & Hm').
    exists fn, w, h. repeat (split; [done|]).
    rewrite (image_info_fold_untouched _ _ _ _ Hrest Hafter).
    rewrite Hm' in Hstep. injection Hstep as <-.
    assert (id = i) as -> by congruence. apply lookup_insert_eq.
Qed.

(** Two entries with id 1: the second one is kept. *)
Lemma image_table_built_witness :
  ∃ fn w h,
    file_name (img 1 "b.jpg" 8 6) = Some fn ∧ width (img 1 "b.jpg" 8 6) = Some w ∧
    height (img 1 "b.jpg" 8 6) = Some h ∧
    ({[ 1 := ImgInfo "b.jpg" 8 6 ]} : gmap Z img_info) !! 1 = Some (ImgInfo fn w h).
Proof.
  apply (proj2 (proj2 (image_table_built [img 1 "a.jpg" 4 2; img 1 "b.jpg" 8 6]))
           {[ 1 := ImgInfo "b.jpg" 8 6 ]} [img 1 "a.jpg" 4 2] (img 1 "b.jpg" 8 6) [] 1);
    try reflexivity.
  constructor.
Defined.

(** X11.  In a run that completes, every annotation is either accepted or
    reported once: the messages printed are one per annotation that is not
    in the rewritten dataset, and one more when there is no category
    list. *)
Theorem run_accounts_for_annotations `{Lib} (data : dataset) (out : output) :
  convert_json_to_yolo_labels data = Ok out →
  (length (annotations (GenerateLabels.data out)) ≤ length (annotations data))%nat ∧
  length (messages out) =
    ((length (annotations data) - length (annotations (GenerateLabels.data out)))
     + if categories data is Some _ then 0 else 1)%nat.
Proof.
  intros (info & st & Hinfo & Hst & Hfiles & _ & -> & ->)%convert_Ok_inv.
  apply process_all_count in Hst as [Hst Hlog]. cbn in Hst, Hlog. cbn [annotations].
  unfold build_category_mapping in Hst, Hlog.
  destruct (categories data); cbn in Hst, Hlog; lia.
Qed.

(** Three annotations, one of unknown shape. *)
Lemma run_accounts_for_annotations_witness :
  let data := Dataset one_image one_category
                [ann 1 1 7 square; ann 2 1 7 SegOther; ann 3 1 7 square] [] in
  ∃ out,
    convert_json_to_yolo_labels (H:=toy_lib) data = Ok out ∧
    (length (annotations (GenerateLabels.data out)) ≤ length (annotations data))%nat ∧
    length (messages out) =
      ((length (annotations data) - length (annotations (GenerateLabels.data out)))
       + if categories data is Some _ then 0 else 1)%nat.
Proof.
  intros data. eexists. split; [vm_compute; reflexivity|].
  apply (run_accounts_for_annotations (H:=toy_lib) data). vm_compute. reflexivity.
Defined.

(** X12.  The rewritten dataset of a completed run keeps the images, the
    categories and the other top-level entries, and its annotations are
    taken from the input in their order: each is an input annotation that
    has its four fields and refers to a listed image, left as it is or with
    its run-length encoding replaced by one polygon.  No annotation of the
    rewritten dataset has a run-length encoding. *)
Theorem rewritten_dataset `{Lib} (data : dataset) (out : output) :
  convert_json_to_yolo_labels data = Ok out →
  images (GenerateLabels.data out) = images data ∧
  categories (GenerateLabels.data out) = categories data ∧
  ds_rest (GenerateLabels.data out) = ds_rest data ∧
  Forall polygon_form (annotations (GenerateLabels.data out)) ∧
  ∃ kept,
    kept `sublist_of` annotations data ∧
    Forall2 rewritten kept (annotations (GenerateLabels.data out)) ∧
    Forall (fun a => is_Some (ann_id a) ∧ is_Some (category_id a) ∧
                     is_Some (segmentation a) ∧
                     ∃ i img, image_id a = Some i ∧ img ∈ images data ∧ img_id img = Some i)
           kept.
Proof.
  intros (info & st & Hinfo & Hst & Hfiles & _ & -> & _)%convert_Ok_inv.
  cbn [images categories ds_rest annotations]. repeat (split; [done|]).
  destruct (process_all_rewritten _ _ _ _ _ Hst) as (kept & news & Hnews & Hsub & Hrew & Hpoly & Hwf).
  cbn in Hnews. subst. split; [done|]. exists kept. split; [done|]. split; [done|].
  eapply Forall_impl; [exact Hwf|]. intros a (? & ? & ? & i & Hi & Hinf).
  repeat (split; [done|]).
  apply (build_image_info_lookup _ _ _ Hinfo) in Hinf as (img & ? & ?). by exists i, img.
Qed.

(** A mask annotation and an annotation of unknown shape. *)
Lemma rewritten_dataset_witness :
  let data := Dataset one_image one_category
                [ann 1 1 7 (SegRLE (Rle [1; 2; 1] [2; 2])); ann 2 1 7 SegOther] [] in
  ∃ out,
    convert_json_to_yolo_labels (H:=toy_lib) data = Ok out ∧
    Forall polygon_form (annotations (GenerateLabels.data out)) ∧
    length (annotations (GenerateLabels.data out)) = 1%nat.
Proof.
  intros data. eexists. split; [vm_compute; reflexivity|]. split; [|reflexivity].
  refine (proj1 (proj2 (proj2 (proj2
            (rewritten_dataset (H:=toy_lib) data _ _))))).
  vm_compute. reflexivity.
Defined.

(** X13.  Every label line of a completed run can be read back: its class
    index is below the number of classes (the declared categories, or else
    the distinct category identifiers of the annotations), and its
    coordinates come in whole (x, y) pairs.  This holds for the per-image
    label sets and for the files written from them. *)
Theorem labels_valid `{Lib} (data : dataset) (out : output) :
  convert_json_to_yolo_labels data = Ok out →
  Forall (fun entry => Forall (valid_label (class_count data)) entry.2) (labels out) ∧
  Forall (fun file => Forall (valid_label (class_count data)) file.2) (label_files out).
Proof.
  intros (info & st & Hinfo & Hst & Hfiles & -> & _ & _)%convert_Ok_inv.
  assert (Forall (Forall (valid_label (class_count data))) (image_annotations st).*2) as Hall.
  { apply Forall_fmap.
    eapply Forall_impl; [apply (process_all_labels _ _ _ _ _ Hst); constructor|].
    intros entry Hentry. cbn. eapply Forall_impl; [exact Hentry|].
    intros label [[cid Hcid] Heven]. split; [|done].
    by apply category_mapping_range in Hcid. }
  split.
  - rewrite Forall_fmap in Hall. eapply Forall_impl; [exact Hall|]. by intros ? ?.
  - apply write_labels_snd in Hfiles. rewrite <- Hfiles in Hall.
    rewrite Forall_fmap in Hall. eapply Forall_impl; [exact Hall|]. by intros ? ?.
Qed.

(** A mask annotation and a polygon annotation of the one declared class. *)
Lemma labels_valid_witness :
  let data := Dataset one_image one_category
                [ann 1 1 7 (SegRLE (Rle [1; 2; 1] [2; 2])); ann 2 1 7 square] [] in
  ∃ out,
    convert_json_to_yolo_labels (H:=toy_lib) data = Ok out ∧
    Forall (fun entry => Forall (valid_label 1) entry.2) (labels out) ∧
    Forall (fun file => Forall (valid_label 1) file.2) (label_files out).
Proof.
  intros data. eexists. split; [vm_compute; reflexivity|].
  apply (labels_valid (H:=toy_lib) data). vm_compute. reflexivity.
Defined.

(** ** merge_COCO_dataset.py *)

(** X14.  When every source image has the fingerprint of some target image
    (in particular for an empty source, or for the target itself), the merge
    changes nothing: the merged dataset is the target and the statistics
    report no addition. *)
Theorem merge_without_new_images (source target : dataset) :
  Forall (fun img => MergeCoco.fingerprint img ∈ MergeCoco.fingerprint <$> images target)
         (images source) →
  MergeCoco.merge_annotation_files source target =
  (target,
   MergeCoco.Stats 0 0 (length (images target)) (length (annotations target))).
Proof. intros Hall. by apply merge_nothing, unseen_nil. Qed.

(** A dataset merged into itself. *)
Lemma merge_without_new_images_witness :
  MergeCoco.merge_annotation_files merge_target merge_target =
  (merge_target, MergeCoco.Stats 0 0 2 2).
Proof.
  apply (merge_without_new_images merge_target merge_target).
  repeat first [apply Forall_nil_2 | apply Forall_cons_2];
    repeat first [by apply list_elem_of_here | apply list_elem_of_further].
Defined.

(** X15.  Merging is idempotent: merging the same source once more into the
    merged dataset leaves it as it is. *)
Theorem merge_idempotent (source target : dataset) :
  (MergeCoco.merge_annotation_files source
     (MergeCoco.merge_annotation_files source target).1).1
  = (MergeCoco.merge_annotation_files source target).1.
Proof.
  rewrite (merge_nothing source); [done|]. apply unseen_nil.
  rewrite merged_images. apply Forall_forall. intros img Himg.
  rewrite fmap_app, elem_of_app.
  destruct (decide (MergeCoco.fingerprint img ∈ MergeCoco.fingerprint <$> images target))
    as [?|Hnew]; [by left|].
  right. apply list_elem_of_fmap. exists img. split; [done|].
  unfold unseen. by apply list_elem_of_filter.
Qed.

(** X16.  The fallback of lines 58-61: when no added image carries an id,
    the annotations appended are the first source annotations, as many as
    images were added, whatever image they belong to. *)
Theorem merge_fallback (source target : dataset) :
  Forall (fun img => img_id img = None) (unseen (images target) (images source)) →
  annotations (MergeCoco.merge_annotation_files source target).1 =
  annotations target ++
  take (length (unseen (images target) (images source))) (annotations source).
Proof.
  intros Hnone. unfold MergeCoco.merge_annotation_files. cbn [fst annotations].
  destruct (scan_source_spec (images target) (images source)) as [Hnew Hids].
  cbn zeta in Hnew, Hids.
  destruct (MergeCoco.scan_source _ _) as [new_images new_image_ids].
  cbn [fst snd] in *. subst new_images. f_equal.
  unfold MergeCoco.select_annotations. rewrite decide_False; [done|].
  intros Hne. apply Hne. apply set_eq. intros id. rewrite Hids. split; [|set_solver].
  intros (img & Hid & Himg)%list_elem_of_fmap.
  rewrite Forall_forall in Hnone. specialize (Hnone img Himg). congruence.
Qed.

(** Source images without ids: the annotation of the duplicate image B is
    the one appended for the new image C. *)
Lemma merge_fallback_witness :
  annotations
    (MergeCoco.merge_annotation_files
       (Dataset [Image None (Some "B.jpg") (Some 200) (Some 150);
                 Image None (Some "C.jpg") (Some 64) (Some 48)]
                None [ann 10 2 7 square; ann 11 3 7 square] [])
       merge_target).1
  = annotations merge_target ++ [ann 10 2 7 square].
Proof.
  rewrite merge_fallback; [reflexivity|].
  repeat first [apply Forall_nil_2 | apply Forall_cons_2]; reflexivity.
Defined.

(** X17.  The merge keeps fingerprints distinct: when no two target images
    and no two source images share a fingerprint, no two images of the
    merged dataset do. *)
Theorem merge_keeps_fingerprints_distinct (source target : dataset) :
  NoDup (MergeCoco.fingerprint <$> images target) →
  NoDup (MergeCoco.fingerprint <$> images source) →
  NoDup (MergeCoco.fingerprint <$>
           images (MergeCoco.merge_annotation_files source target).1).
Proof.
  intros Htarget Hsource. rewrite merged_images, fmap_app.
  apply NoDup_app. split; [done|]. split.
  - intros fp Hfp (img & -> & [Hnew _]%list_elem_of_filter)%list_elem_of_fmap. done.
  - by apply NoDup_fmap_filter.
Qed.

Lemma merge_keeps_fingerprints_distinct_witness :
  NoDup (MergeCoco.fingerprint <$>
           images (MergeCoco.merge_annotation_files merge_source merge_target).1).
Proof.
  apply (merge_keeps_fingerprints_distinct merge_source merge_target);
    (eapply bool_decide_unpack; vm_compute; reflexivity).
Defined.

(** ** split_COCO_dataset.py *)



(** X19.  The image list of each output holds only images of the input
    that one of the output's annotations refers to, no two of them with the
    same id; and the files copied for an output are, in the order of its
    image list, the old directory followed by each image's file name. *)
Theorem split_lists_referenced_images {rng : Type}
    (shuffle : rng -> list annotation -> list annotation * rng)
    (data : dataset) (dir : string) (r : Q) (g : rng) (train val : SplitCoco.part) :
  (∀ g l, (shuffle g l).1 ≡ₚ l) →
  SplitCoco.split_coco_dataset_by_category shuffle data dir r g = Ok (train, val) →
  ∀ part, part ∈ [train; val] →
    NoDup (img_id <$> images (SplitCoco.coco part)) ∧
    (∀ img, img ∈ images (SplitCoco.coco part) →
       img ∈ images data ∧
       ∃ a, a ∈ annotations (SplitCoco.coco part) ∧ image_id a = img_id img) ∧
    Forall2 (fun img path => (fun fn => dir +:+ fn) <$> file_name img = Some path)
            (images (SplitCoco.coco part)) (SplitCoco.copied part).
Proof.
  intros Hshuffle Hrun.
  destruct (split_outcome shuffle Hshuffle data dir r g)
    as [[_ (train' & val' & Hrun' & Htrace)]|[_ Hraise]]; [|congruence].
  assert (train' = train ∧ val' = val) as [-> ->] by (split; congruence).
  destruct Htrace as (cats & info & paths & groups & g' & tids & vids & _ & Hinfo & Hpaths &
                      _ & _ & _ & _ & _ & _ & _ & Htmem & Hvmem & Hti & Hvi & Htp & Hvp).
  destruct (tables_agree dir _ _ _ Hinfo Hpaths) as (Hown & Hagree & _).
  assert (∀ (ids : gset Z) (anns : list annotation) (imgs : list image)
            (copies : list string),
            (∀ i, i ∈ ids ↔ ∃ a : annotation, a ∈ anns ∧ image_id a = Some i) →
            Forall2 (fun i img => info !! i = Some img) (elements ids) imgs →
            Forall2 (fun i path => paths !! i = Some path) (elements ids) copies →
            NoDup (img_id <$> imgs) ∧
            (∀ img, img ∈ imgs →
               img ∈ images data ∧ ∃ a, a ∈ anns ∧ image_id a = img_id img) ∧
            Forall2 (fun img path => (fun fn => dir +:+ fn) <$> file_name img = Some path)
                    imgs copies) as Hpart.
  { intros ids anns imgs copies Hmem Himgs Hcopies. split; [|split].
    - assert (img_id <$> imgs = Some <$> elements ids) as ->.
      { clear -Himgs Hown. induction Himgs as [|i img ids' imgs Hi _ IH]; [done|].
        rewrite !fmap_cons, IH. f_equal. by apply Hown in Hi as [_ ?]. }
      apply (NoDup_fmap_2 _), NoDup_elements.
    - intros img (k & Hk)%list_elem_of_lookup.
      destruct (Forall2_lookup_r _ _ _ _ _ Himgs Hk) as (i & Hi & Himg).
      destruct (Hown _ _ Himg) as [Hin Hid]. split; [done|].
      apply list_elem_of_lookup_2, elem_of_elements, Hmem in Hi as (a & Ha & Hai).
      exists a. split; [done|]. congruence.
    - by apply (copies_of_images dir info paths (elements ids)). }
  intros part [->|[->|[]%elem_of_nil]%elem_of_cons]%elem_of_cons; eauto.
Qed.

Lemma split_lists_referenced_images_witness :
  ∃ train val,
    SplitCoco.split_coco_dataset_by_category backwards split_sample "images/" (4 # 5) tt
      = Ok (train, val) ∧
    NoDup (img_id <$> images (SplitCoco.coco train)) ∧
    Forall2 (fun img path => (fun fn => "images/" +:+ fn) <$> file_name img = Some path)
            (images (SplitCoco.coco train)) (SplitCoco.copied train).
Proof.
  eexists _, _. split; [vm_compute; reflexivity|].
  match goal with
  | |- NoDup (img_id <$> images (SplitCoco.coco ?t)) ∧ _ =>
      destruct (split_lists_referenced_images backwards split_sample "images/" (4 # 5) tt
                  t _ (fun g l => reverse_Permutation l) eq_refl t
                  ltac:(apply list_elem_of_here)) as (Hnd & _ & Hcopies)
  end.
  split; [exact Hnd | exact Hcopies].
Defined.

(** X20.  At a ratio of 1 or more, every annotation goes to the train set:
    the val output has no annotation, no image and no copied file.  At
    ratio 0 it is the train output that is empty. *)
Theorem split_extreme_ratios {rng : Type}
    (shuffle : rng -> list annotation -> list annotation * rng)
    (data : dataset) (dir : string) (r : Q) (g : rng) (train val : SplitCoco.part) :
  (∀ g l, (shuffle g l).1 ≡ₚ l) →
  SplitCoco.split_coco_dataset_by_category shuffle data dir r g = Ok (train, val) →
  ((1 <= r)%Q →
     annotations (SplitCoco.coco val) = [] ∧ images (SplitCoco.coco val) = [] ∧
     SplitCoco.copied val = [] ∧
     annotations (SplitCoco.coco train) ≡ₚ annotations data) ∧
  ((r == 0)%Q →
     annotations (SplitCoco.coco train) = [] ∧ images (SplitCoco.coco train) = [] ∧
     SplitCoco.copied train = [] ∧
     annotations (SplitCoco.coco val) ≡ₚ annotations data).
Proof.
  intros Hshuffle Hrun.
  destruct (split_outcome shuffle Hshuffle data dir r g)
    as [[_ (train' & val' & Hrun' & Htrace)]|[_ Hraise]]; [|congruence].
  assert (train' = train ∧ val' = val) as [-> ->] by (split; congruence).
  destruct Htrace as (cats & info & paths & groups & g' & tids & vids & _ & Hinfo & Hpaths &
                      _ & Hsplit & Hperm & _ & _ & _ & _ & Htmem & Hvmem & Hti & Hvi & Htp & Hvp).
  split; intros Hr.
  - pose proof (split_categories_all_train shuffle r g groups Hr) as Hval.
    rewrite Hsplit in Hval. cbn in Hval. rewrite Hval in Hvmem, Hperm.
    destruct (no_annotations_no_images _ _ _ _ _ Hvmem Hvi Hvp) as [-> ->].
    rewrite app_nil_r in Hperm. done.
  - pose proof (split_categories_all_val shuffle r g groups Hr) as Htrain.
    rewrite Hsplit in Htrain. cbn in Htrain. rewrite Htrain in Htmem, Hperm.
    destruct (no_annotations_no_images _ _ _ _ _ Htmem Hti Htp) as [-> ->].
    done.
Qed.

Lemma split_extreme_ratios_witness :
  ∃ train val,
    SplitCoco.split_coco_dataset_by_category backwards split_sample "images/" 1 tt
      = Ok (train, val) ∧
    annotations (SplitCoco.coco val) = [] ∧ images (SplitCoco.coco val) = [] ∧
    SplitCoco.copied val = [] ∧
    annotations (SplitCoco.coco train) ≡ₚ annotations split_sample.
Proof.
  eexists _, _. split; [vm_compute; reflexivity|].
  match goal with
  | |- annotations (SplitCoco.coco ?v) = [] ∧ _ ∧ _ ∧ annotations (SplitCoco.coco ?t) ≡ₚ _ =>
      apply (proj1 (split_extreme_ratios backwards split_sample "images/" 1 tt t v
                      (fun g l => reverse_Permutation l) eq_refl))
  end.
  discriminate.
Defined.

(** ** generate_labels.py: skipped records and a second run *)

(** X21.  An annotation record that lacks its id, image id, category id or
    segmentation, or whose image id is that of no image, only adds a
    message.  Provided the dataset has a category list or the record has no
    category id, a run on the dataset with the record put in anywhere
    writes the same label files from the same label sets and gives the same
    rewritten dataset as the run without it, with one more message at the
    record's place; and if the run without it ends with an exception, so
    does the run with it. *)
Theorem skipped_record_inert `{Lib} (imgs : list image) (cats : option (list category))
    (anns1 anns2 : list annotation) (rest : list (string * string)) (a : annotation) :
  ann_id a = None ∨ image_id a = None ∨ category_id a = None ∨ segmentation a = None ∨
    (∃ i, image_id a = Some i ∧ Some i ∉ img_id <$> imgs) →
  is_Some cats ∨ category_id a = None →
  match convert_json_to_yolo_labels (Dataset imgs cats (anns1 ++ anns2) rest) with
  | Ok out =>
      ∃ out' m before after,
        convert_json_to_yolo_labels (Dataset imgs cats (anns1 ++ a :: anns2) rest) = Ok out' ∧
        label_files out' = label_files out ∧ labels out' = labels out ∧
        GenerateLabels.data out' = GenerateLabels.data out ∧
        messages out = before ++ after ∧ messages out' = before ++ m :: after
  | Raise e =>
      convert_json_to_yolo_labels (Dataset imgs cats (anns1 ++ a :: anns2) rest) = Raise e
  end.
Proof.
  intros Hbad Hcats. unfold convert_json_to_yolo_labels.
  rewrite (category_mapping_skip imgs cats anns1 a anns2 rest Hcats).
  cbn [images annotations categories ds_rest].
  destruct (build_image_info imgs) as [info|e] eqn:Hinfo; cbn [mbind result_bind]; [|done].
  destruct (skipped_step info (build_category_mapping (Dataset imgs cats (anns1 ++ anns2) rest)).1 a)
    as [m Hstep].
  { destruct Hbad as [?|[?|[?|[?|(i & Hi & Hnone)]]]]; auto.
    do 4 right. exists i. split; [done|].
    apply eq_None_not_Some. rewrite (build_image_info_lookup _ _ _ Hinfo).
    intros (img & Himg & Hid). apply Hnone. rewrite <- Hid. by apply list_elem_of_fmap_2. }
  rewrite !foldM_app.
  destruct (foldM _ _ anns1) as [[na1 ia1 L1]|e]; cbn [mbind result_bind]; [|done].
  cbn [foldM]. rewrite Hstep. cbn [mbind result_bind]. unfold print. cbn [new_annotations image_annotations log].
  rewrite (process_all_log _ _ na1 ia1 (L1 ++ [m])), (process_all_log _ _ na1 ia1 L1).
  destruct (foldM _ (State na1 ia1 []) anns2) as [[na2 ia2 L2]|e];
    cbn [mbind result_bind new_annotations image_annotations log]; [|done].
  destruct (write_labels info ia2) as [files|e]; cbn [mbind result_bind]; [|done].
  eexists _, m, L1, L2. split; [done|]. cbn. by rewrite <- app_assoc.
Qed.

(** A record that refers to image 99, between two squares on image 1. *)
Lemma skipped_record_inert_witness :
  ∃ out out',
    convert_json_to_yolo_labels (H:=toy_lib)
      (Dataset one_image one_category [ann 1 1 7 square; ann 3 1 7 square] []) = Ok out ∧
    convert_json_to_yolo_labels (H:=toy_lib)
      (Dataset one_image one_category [ann 1 1 7 square; ann 2 99 7 square; ann 3 1 7 square] [])
      = Ok out' ∧
    label_files out' = label_files out ∧ labels out' = labels out ∧
    GenerateLabels.data out' = GenerateLabels.data out.
Proof.
  pose proof (skipped_record_inert (H:=toy_lib) one_image one_category
                [ann 1 1 7 square] [ann 3 1 7 square] [] (ann 2 99 7 square)) as Hthm.
  destruct (convert_json_to_yolo_labels (H:=toy_lib)
              (Dataset one_image one_category ([ann 1 1 7 square] ++ [ann 3 1 7 square]) []))
    as [out|e] eqn:Hout; [|vm_compute in Hout; discriminate].
  destruct Hthm as (out' & m & before & after & Hrun & Hfiles & Hlabels & Hdata & _).
  - do 4 right. exists 99. split; [reflexivity|].
    intros (img & Hid & Himg)%list_elem_of_fmap.
    apply list_elem_of_singleton in Himg as ->. discriminate.
  - left. by eexists.
  - exists out, out'. auto.
Defined.

(** X22.  The rewritten dataset is a fixed point of the conversion: a run
    on the dataset that a completed run returned completes as well, accepts
    every annotation, prints no message but the one for a missing category
    list, and returns the same dataset again.  When the dataset has a
    category list, the second run also collects the same labels for every
    image. *)
Theorem reconversion_fixed_point `{Lib} (data : dataset) (out : output) :
  convert_json_to_yolo_labels data = Ok out →
  ∃ out',
    convert_json_to_yolo_labels (GenerateLabels.data out) = Ok out' ∧
    GenerateLabels.data out' = GenerateLabels.data out ∧
    messages out' = (if categories data is Some _ then [] else [WarnNoCategories]) ∧
    (is_Some (categories data) →
     ∀ i, label_set i (labels out') = label_set i (labels out)).
Proof.
  intros (info & st & Hinfo & Hst & Hfiles & Hlabels & Hdata & Hmsg)%convert_Ok_inv.
  destruct (process_all_replay _ _ _ _ _ Hst) as (added & Hna & Hcats & Hreplay).
  cbn in Hna. subst added. rewrite Hdata, Hlabels.
  set (data' := Dataset (images data) (categories data) (new_annotations st) (ds_rest data)).
  assert (categories data = categories data') as Hsame by done.
  destruct (Hreplay (build_category_mapping data').1
                    (State [] [] (build_category_mapping data').2))
    as (st2 & Hrun & Hna2 & Hlog2 & Hlab).
  { unfold build_category_mapping in Hcats |- *. rewrite <- Hsame. revert Hcats.
    destruct (categories data) as [cats|]; cbn; intros Hcats.
    - eapply Forall_impl; [exact Hcats|]. cbn.
      intros a (cid & Hcid & Hidx) cid'. rewrite Hcid. by intros [= <-].
    - apply Forall_forall. intros a Ha cid Hcid.
      destruct (sorted_spec (unique_cats (new_annotations st))) as [Hsorted Hmem].
      assert (cid ∈ sorted (unique_cats (new_annotations st))) as [k Hk]%list_elem_of_lookup.
      { apply Hmem, unique_cats_spec. eauto. }
      exists k. apply (dict_of_enumerate_NoDup (fun z : Z => z)); [|done].
      rewrite list_fmap_id. by apply StronglySorted_lt_NoDup. }
  cbn in Hna2, Hlog2.
  destruct (write_labels_total info (image_annotations st2)) as [files Hfiles2].
  { intros i Hi. apply (process_all_keys _ _ _ _ _ i Hrun) in Hi
      as [?%elem_of_nil|(a & _ & (_ & _ & _ & j & Hj & Hinf) & Hi)]; [done|].
    congruence. }
  eexists. unfold convert_json_to_yolo_labels.
  change (images data') with (images data). rewrite Hinfo. cbn [mbind result_bind].
  change (annotations data') with (new_annotations st). rewrite Hrun. cbn [mbind result_bind].
  rewrite Hfiles2. cbn [mbind result_bind].
  split; [done|]. cbn. split; [by rewrite Hna2|].
  split.
  - rewrite Hlog2. unfold build_category_mapping. rewrite <- Hsame.
    by destruct (categories data).
  - intros [cats Hsome]. apply Hlab; [|done].
    apply Forall_forall. intros a _ cid _.
    unfold build_category_mapping. rewrite <- Hsame, Hsome. done.
Qed.

(** A mask, an annotation of unknown shape and a polygon on one image. *)
Lemma reconversion_fixed_point_witness :
  let data := Dataset one_image one_category
                [ann 1 1 7 (SegRLE (Rle [1; 2; 1] [2; 2])); ann 2 1 7 SegOther;
                 ann 3 1 7 square] [] in
  ∃ out out',
    convert_json_to_yolo_labels (H:=toy_lib) data = Ok out ∧
    convert_json_to_yolo_labels (H:=toy_lib) (GenerateLabels.data out) = Ok out' ∧
    GenerateLabels.data out' = GenerateLabels.data out ∧
    messages out' = [] ∧
    ∀ i, label_set i (labels out') = label_set i (labels out).
Proof.
  intros data.
  destruct (convert_json_to_yolo_labels (H:=toy_lib) data) as [out|e] eqn:Hout;
    [|vm_compute in Hout; discriminate].
  destruct (reconversion_fixed_point (H:=toy_lib) data out Hout)
    as (out' & Hrun & Hdata & Hmsg & Hlab).
  exists out, out'. split; [done|]. split; [done|]. split; [done|]. split; [done|].
  apply Hlab. by eexists.
Defined.
